(** * Software PWM LED control (examples/03-pwm-control/pwm-control.c)

    A shallow embedding of the software PWM generator, its duty-cycle
    accessor, the animation pattern functions, the shutdown protocol between
    the control thread and the generation thread, and the start-up sequence
    of [main].

    Conventions.
    - A C [int] is a [Z]; arithmetic that the source performs on [int] is
      written with [wrap_int] (two's complement, 32 bits), arithmetic on
      [long] with [wrap_long] (64 bits, the LP64 model of the target).
    - [a / b] on C integers truncates toward zero: [Z.quot].
    - Static locals of the animation functions are explicit records that are
      passed in and returned.
    - A critical section guarded by [pwm->mutex] is one atomic step. *)

From Stdlib Require Import ZArith List Bool String Ascii Lia.
Import ListNotations.
Open Scope Z_scope.

(** ** C integer types *)

Definition wrap_int (z : Z) : Z := (z + 2 ^ 31) mod 2 ^ 32 - 2 ^ 31.
Definition wrap_long (z : Z) : Z := (z + 2 ^ 63) mod 2 ^ 64 - 2 ^ 63.

Definition INT_MIN : Z := - 2 ^ 31.
Definition INT_MAX : Z := 2 ^ 31 - 1.

(** The newline character of the format strings. *)
Definition nl : string := String (ascii_of_nat 10) EmptyString.

(** ** Configuration macros *)

Definition LED_PIN : Z := 17.
Definition BUTTON_PIN : Z := 27.
Definition PWM_FREQUENCY : Z := 1000.
Definition PWM_PERIOD_NS : Z := Z.quot 1000000000 PWM_FREQUENCY.
Definition DUTY_CYCLE_STEPS : Z := 100.

(** ** The PWM control structure

    [pwm_control_t] without its [thread] and [mutex] members: the thread is
    the generation machine of module [Generator], and the mutex is the
    atomicity of the steps that touch [duty_cycle]. *)

Record pwm_control_t : Type := mk_pwm {
  line : Z;          (* the gpiod line handle, identified by its offset *)
  duty_cycle : Z;    (* volatile int duty_cycle *)
  active : bool      (* volatile bool active *)
}.

(** [set_duty_cycle(pwm, duty_cycle)]: clamp with two independent [if]s, then
    store under the mutex.  The function is [void]: it has no status to
    return. *)
Definition set_duty_cycle (pwm : pwm_control_t) (duty : Z) : pwm_control_t :=
  let duty := if duty <? 0 then 0 else duty in
  let duty := if 100 <? duty then 100 else duty in
  {| line := line pwm; duty_cycle := duty; active := active pwm |}.

(** The three stores that open [pwm_init]; they happen whether or not the
    mutex and the thread can be created afterwards. *)
Definition pwm_init_fields (ln : Z) : pwm_control_t :=
  {| line := ln; duty_cycle := 0; active := true |}.

(** ** One cycle of [pwm_thread] *)

Definition on_time_ns (duty : Z) : Z :=
  Z.quot (wrap_int (PWM_PERIOD_NS * duty)) 100.

Definition off_time_ns (duty : Z) : Z :=
  wrap_long (PWM_PERIOD_NS - on_time_ns duty).

(** What the loop body asks of the outside world. *)
Inductive action : Type :=
| SetValue (v : Z)        (* gpiod_line_set_value(pwm->line, v) *)
| NanoSleep (ns : Z).     (* nano_sleep(ns) *)

Definition cycle_actions (duty : Z) : list action :=
  (if 0 <? duty then [SetValue 1; NanoSleep (on_time_ns duty)] else [])
  ++ (if duty <? 100 then [SetValue 0; NanoSleep (off_time_ns duty)] else []).

Definition sleep_of (a : action) : Z :=
  match a with
  | SetValue _ => 0
  | NanoSleep ns => ns
  end.

Definition sleep_total (l : list action) : Z :=
  fold_right (fun a acc => sleep_of a + acc) 0 l.

Definition is_write (a : action) : bool :=
  match a with
  | SetValue _ => true
  | NanoSleep _ => false
  end.

Definition writes_of (l : list action) : list Z :=
  flat_map (fun a => match a with SetValue v => [v] | NanoSleep _ => [] end) l.

Definition sleeps_of (l : list action) : list Z :=
  flat_map (fun a => match a with SetValue _ => [] | NanoSleep ns => [ns] end) l.

(** ** Animation pattern functions *)

Module Animation.

(** The statics of [breathing_animation]. *)
Record breathing_statics : Type := mk_breathing {
  brightness : Z;
  direction : Z
}.

Definition breathing_initial : breathing_statics :=
  {| brightness := 0; direction := 1 |}.

(** Each animation returns its new statics, the channel, and the arguments
    of the [set_duty_cycle] calls it made. *)
Definition breathing_animation (st : breathing_statics) (pwm : pwm_control_t)
  : breathing_statics * pwm_control_t * list Z :=
  let b := wrap_int (brightness st + wrap_int (direction st * 2)) in
  let st' :=
    if 100 <=? b then {| brightness := 100; direction := -1 |}
    else if b <=? 0 then {| brightness := 0; direction := 1 |}
    else {| brightness := b; direction := direction st |} in
  (st', set_duty_cycle pwm (brightness st'), [brightness st']).

(** The statics of [strobe_animation]. *)
Record strobe_statics : Type := mk_strobe {
  state : Z;
  counter : Z
}.

Definition strobe_initial : strobe_statics := {| state := 0; counter := 0 |}.

Definition strobe_animation (st : strobe_statics) (pwm : pwm_control_t)
  : strobe_statics * pwm_control_t * list Z :=
  let c := wrap_int (counter st + 1) in
  if 5 <=? c then
    let s := if state st =? 0 then 1 else 0 in
    let v := if s =? 0 then 0 else 100 in
    ({| state := s; counter := 0 |}, set_duty_cycle pwm v, [v])
  else
    ({| state := state st; counter := c |}, pwm, []).

(** [n] successive calls of an animation; the call log is oldest first. *)
Section Repeat.
Context {S : Type}.
Variable anim : S -> pwm_control_t -> S * pwm_control_t * list Z.

Fixpoint repeat_calls (n : nat) (st : S) (pwm : pwm_control_t)
  : S * pwm_control_t * list Z :=
  match n with
  | O => (st, pwm, [])
  | Datatypes.S k =>
      let '(st1, pwm1, log1) := repeat_calls k st pwm in
      let '(st2, pwm2, log2) := anim st1 pwm1 in
      (st2, pwm2, log1 ++ log2)
  end.
End Repeat.

Definition statics_after {S} (r : S * pwm_control_t * list Z) : S := fst (fst r).
Definition channel_after {S} (r : S * pwm_control_t * list Z) : pwm_control_t :=
  snd (fst r).
Definition calls_of {S} (r : S * pwm_control_t * list Z) : list Z := snd r.

End Animation.

(** ** The generation thread and the shutdown protocol

    The program has two threads once [pwm_init] has succeeded: the control
    thread ([main]) and the generation thread ([pwm_thread]).  They are
    interleaved by a schedule; each step is one access to shared state or
    one call into the outside world.  Accesses to the [volatile] members are
    taken to be sequentially consistent. *)

Module Generator.

(** The outside world of the generation thread: the level of the LED line
    and, for each future [gpiod_line_set_value] call, whether it fails. *)
Record gpio : Type := mk_gpio {
  level : Z;
  faults : list bool
}.

(** [gpiod_line_set_value]: 0 on success, -1 on failure; a failed write
    leaves the level as it was. *)
Definition gpiod_line_set_value (g : gpio) (v : Z) : Z * gpio :=
  match faults g with
  | true :: fs => (-1, {| level := level g; faults := fs |})
  | false :: fs => (0, {| level := v; faults := fs |})
  | [] => (0, {| level := v; faults := [] |})
  end.

(** Where [pwm_thread] stands. *)
Inductive thread_pc : Type :=
| AtWhile                       (* about to evaluate [pwm->active] *)
| AtRead                        (* in the body, about to read [duty_cycle] *)
| InCycle (todo : list action)  (* what is left of the current cycle *)
| AtFinalWrite                  (* loop left, about to force the line low *)
| Returned.                     (* [return NULL] *)

(** Where the control thread stands, from its main loop onwards. *)
Inductive main_pc : Type :=
| InMainLoop          (* [while (running)] *)
| AtJoin              (* in [pwm_cleanup], [active] cleared, at [pthread_join] *)
| AtMutexDestroy      (* in [pwm_cleanup], join has returned *)
| AtReleaseButton     (* [pwm_cleanup] has returned *)
| AtReleaseLed
| AtCloseChip
| Exited.

Inductive event : Type :=
| EvWrite (v ret : Z)     (* generation thread: set_value(line, v) gave ret *)
| EvSleep (ns : Z)        (* generation thread: nano_sleep(ns) *)
| EvLoopExit              (* generation thread: [pwm->active] read as false *)
| EvSetDuty (v : Z)       (* control thread: set_duty_cycle(&pwm, v) *)
| EvStop                  (* control thread: pwm->active = false *)
| EvJoin                  (* control thread: pthread_join returned *)
| EvMutexDestroy
| EvRelease (pin : Z)     (* control thread: gpiod_line_release *)
| EvCloseChip.

Record system : Type := mk_system {
  pwm : pwm_control_t;
  hw : gpio;
  console : list string;    (* what has been printed, newest first *)
  tpc : thread_pc;
  mpc : main_pc;
  trace : list event        (* newest first *)
}.

Definition after_action (todo : list action) : thread_pc :=
  match todo with
  | [] => AtWhile
  | _ :: _ => InCycle todo
  end.

(** One step of [pwm_thread]. *)
Definition pwm_thread_step (s : system) : system :=
  match tpc s with
  | AtWhile =>
      if active (pwm s)
      then mk_system (pwm s) (hw s) (console s) AtRead (mpc s) (trace s)
      else mk_system (pwm s) (hw s) (console s) AtFinalWrite (mpc s)
             (EvLoopExit :: trace s)
  | AtRead =>
      let duty := duty_cycle (pwm s) in
      mk_system (pwm s) (hw s) (console s)
        (after_action (cycle_actions duty)) (mpc s) (trace s)
  | InCycle [] =>
      mk_system (pwm s) (hw s) (console s) AtWhile (mpc s) (trace s)
  | InCycle (SetValue v :: todo) =>
      let '(ret, g) := gpiod_line_set_value (hw s) v in
      mk_system (pwm s) g (console s) (after_action todo) (mpc s)
        (EvWrite v ret :: trace s)
  | InCycle (NanoSleep ns :: todo) =>
      mk_system (pwm s) (hw s) (console s) (after_action todo) (mpc s)
        (EvSleep ns :: trace s)
  | AtFinalWrite =>
      let '(ret, g) := gpiod_line_set_value (hw s) 0 in
      mk_system (pwm s) g (console s) Returned (mpc s)
        (EvWrite 0 ret :: trace s)
  | Returned => s
  end.

(** One step of the control thread.  In the main loop the step is either an
    animation tick that calls [set_duty_cycle] with [v] ([Some v]), or the
    observation that [running] is false ([None]), which leaves the loop and
    enters [pwm_cleanup].  [pthread_join] blocks until the generation thread
    has returned. *)
Definition main_step (req : option Z) (s : system) : system :=
  match mpc s with
  | InMainLoop =>
      match req with
      | Some v =>
          mk_system (set_duty_cycle (pwm s) v) (hw s) (console s) (tpc s)
            InMainLoop (EvSetDuty v :: trace s)
      | None =>
          mk_system
            {| line := line (pwm s); duty_cycle := duty_cycle (pwm s);
               active := false |}
            (hw s) ((nl ++ "Cleaning up..." ++ nl)%string :: console s)
            (tpc s) AtJoin (EvStop :: trace s)
      end
  | AtJoin =>
      match tpc s with
      | Returned =>
          mk_system (pwm s) (hw s) (console s) (tpc s) AtMutexDestroy
            (EvJoin :: trace s)
      | _ => s
      end
  | AtMutexDestroy =>
      mk_system (pwm s) (hw s) (console s) (tpc s) AtReleaseButton
        (EvMutexDestroy :: trace s)
  | AtReleaseButton =>
      mk_system (pwm s) (hw s) (console s) (tpc s) AtReleaseLed
        (EvRelease BUTTON_PIN :: trace s)
  | AtReleaseLed =>
      mk_system (pwm s) (hw s) (console s) (tpc s) AtCloseChip
        (EvRelease LED_PIN :: trace s)
  | AtCloseChip =>
      mk_system (pwm s) (hw s)
        (("PWM control terminated." ++ nl)%string :: console s)
        (tpc s) Exited (EvCloseChip :: trace s)
  | Exited => s
  end.

Inductive choice : Type :=
| RunThread
| RunMain (req : option Z).

Definition step (c : choice) (s : system) : system :=
  match c with
  | RunThread => pwm_thread_step s
  | RunMain req => main_step req s
  end.

Definition run (sch : list choice) (s : system) : system :=
  fold_left (fun s c => step c s) sch s.

(** The state in which [pwm_init] leaves the program when it succeeds: the
    fields are initialised and the thread has been created. *)
Definition started (ln : Z) (g : gpio) : system :=
  mk_system (pwm_init_fields ln) g [] AtWhile InMainLoop [].

Definition is_thread_event (e : event) : bool :=
  match e with
  | EvWrite _ _ | EvSleep _ | EvLoopExit => true
  | _ => false
  end.

Definition thread_events (tr : list event) : list event :=
  filter is_thread_event tr.

Definition is_stop (e : event) : bool :=
  match e with EvStop => true | _ => false end.

Definition is_join (e : event) : bool :=
  match e with EvJoin => true | _ => false end.

Definition is_mutex_destroy (e : event) : bool :=
  match e with EvMutexDestroy => true | _ => false end.

(** The events that are newer than the most recent event satisfying [mark],
    if there is one. *)
Fixpoint since (mark : event -> bool) (tr : list event) : option (list event) :=
  match tr with
  | [] => None
  | e :: tr' =>
      if mark e then Some []
      else match since mark tr' with
           | Some newer => Some (e :: newer)
           | None => None
           end
  end.

Definition slept (tr : list event) : Z :=
  fold_right (fun e acc => match e with EvSleep ns => ns + acc | _ => acc end)
    0 tr.

Definition count_thread_steps (sch : list choice) : nat :=
  List.length (filter (fun c => match c with RunThread => true | _ => false end) sch).

(** The sleep the thread has still to request in its current cycle. *)
Definition budget (pc : thread_pc) : Z :=
  match pc with
  | AtRead => PWM_PERIOD_NS
  | InCycle todo => sleep_total todo
  | AtWhile | AtFinalWrite | Returned => 0
  end.

(** An upper bound on the steps the thread takes before it returns, once
    [active] is false. *)
Definition steps_left (pc : thread_pc) : nat :=
  match pc with
  | AtRead => 8
  | InCycle todo => List.length todo + 3
  | AtWhile => 2
  | AtFinalWrite => 1
  | Returned => 0
  end.

Definition cycle_tail (todo : list action) : Prop :=
  Forall (fun a => 0 <= sleep_of a) todo
  /\ sleep_total todo <= PWM_PERIOD_NS
  /\ (List.length todo <= 4)%nat.

(** What holds of the generation thread at each of its control points. *)
Definition thread_inv (s : system) : Prop :=
  match tpc s with
  | AtWhile | AtRead => ~ In EvLoopExit (trace s)
  | InCycle todo => cycle_tail todo /\ ~ In EvLoopExit (trace s)
  | AtFinalWrite =>
      exists rest,
        thread_events (trace s) = EvLoopExit :: rest /\ ~ In EvLoopExit rest
  | Returned =>
      exists ret rest,
        thread_events (trace s) = EvWrite 0 ret :: EvLoopExit :: rest
        /\ ~ In EvLoopExit rest
  end.

(** What holds of the control thread at each of its control points. *)
Definition main_inv (s : system) : Prop :=
  match mpc s with
  | InMainLoop => active (pwm s) = true /\ since is_stop (trace s) = None
  | AtJoin =>
      active (pwm s) = false
      /\ exists newer,
           since is_stop (trace s) = Some newer
           /\ slept newer + budget (tpc s) <= PWM_PERIOD_NS
  | AtMutexDestroy | AtReleaseButton | AtReleaseLed | AtCloseChip | Exited =>
      active (pwm s) = false
      /\ (exists newer,
            since is_stop (trace s) = Some newer
            /\ slept newer + budget (tpc s) <= PWM_PERIOD_NS)
      /\ tpc s = Returned
      /\ exists newer,
           since is_join (trace s) = Some newer /\ thread_events newer = []
  end.

Definition inv (s : system) : Prop :=
  0 <= duty_cycle (pwm s) <= 100 /\ thread_inv s /\ main_inv s.

Definition joined (pc : main_pc) : bool :=
  match pc with
  | InMainLoop | AtJoin => false
  | _ => true
  end.

(** A failed write counts as reported when something is printed. *)
Definition failure_reported (before after : system) : Prop :=
  console after <> console before.

(** A run in which half brightness is requested, the thread starts a cycle,
    shutdown is requested in mid-cycle, and both threads run to the end. *)
Definition sample_schedule : list choice :=
  [RunMain (Some 50); RunThread; RunThread; RunThread; RunMain None;
   RunMain None; RunThread; RunThread; RunThread; RunThread; RunThread;
   RunMain None; RunMain None; RunMain None; RunMain None; RunMain None].

Definition sample_gpio : gpio := {| level := 0; faults := [] |}.

(** The state just before a write that is going to fail. *)
Definition before_failed_write : system :=
  run [RunMain (Some 50); RunThread; RunThread]
    (started LED_PIN {| level := 0; faults := [true] |}).

End Generator.

(** ** Start-up and tear-down of [main] *)

Module Startup.

Import Generator.

(** What the platform answers to each acquisition [main] attempts. *)
Record platform : Type := mk_platform {
  chip_opens : bool;            (* gpiod_chip_open_by_name is non-NULL *)
  led_line_found : bool;        (* gpiod_chip_get_line(chip, LED_PIN) *)
  button_line_found : bool;     (* gpiod_chip_get_line(chip, BUTTON_PIN) *)
  request_output_ret : Z;       (* gpiod_line_request_output *)
  request_input_ret : Z;        (* gpiod_line_request_input_flags *)
  mutex_init_ret : Z;           (* pthread_mutex_init *)
  thread_create_ret : Z         (* pthread_create *)
}.

Inductive effect : Type :=
| Printf (fmt : string)         (* printf, by its format string *)
| Eprintf (fmt : string)        (* fprintf(stderr, ...) *)
| Perror (msg : string)
| InstallHandler (sig : string)
| MutexDestroy
| ThreadCreated                 (* pthread_create succeeded: pwm_thread runs *)
| ControlLoop                   (* the [while (running)] loop of [main] *)
| PwmCleanup
| LineRelease (pin : Z)
| ChipClose.

(** [pwm_init]: status, the structure as it is left, and the effects. *)
Definition pwm_init (p : platform) (ln : Z) : Z * pwm_control_t * list effect :=
  let pwm := pwm_init_fields ln in
  if negb (mutex_init_ret p =? 0) then
    (-1, pwm, [Perror "Mutex init failed"])
  else if negb (thread_create_ret p =? 0) then
    (-1, pwm, [Perror "Thread creation failed"; MutexDestroy])
  else
    (0, pwm, [ThreadCreated]).

(** The three cleanup labels, each falling through to the next. *)
Definition cleanup_chip (done : list effect) : Z * list effect :=
  (0, done ++ [ChipClose; Printf ("PWM control terminated." ++ nl)]).

Definition release_led (done : list effect) : Z * list effect :=
  cleanup_chip (done ++ [LineRelease LED_PIN]).

Definition release_button (done : list effect) : Z * list effect :=
  release_led (done ++ [LineRelease BUTTON_PIN]).

Definition banner : list effect :=
  [Printf (nl ++ "=== Raspberry Pi 5 PWM LED Control ===" ++ nl);
   Printf ("Demonstrates software PWM for LED brightness" ++ nl ++ nl);
   InstallHandler "SIGINT"; InstallHandler "SIGTERM"].

Definition usage : list effect :=
  [Printf ("PWM Configuration:" ++ nl);
   Printf ("  Frequency: %d Hz" ++ nl);
   Printf ("  Period: %.2f ms" ++ nl);
   Printf ("  Resolution: %d steps" ++ nl ++ nl);
   Printf ("Controls:" ++ nl);
   Printf ("  Press button to cycle through modes" ++ nl);
   Printf ("  Modes: Manual -> Breathing -> Sine Wave -> Strobe" ++ nl);
   Printf ("  Press Ctrl+C to exit" ++ nl ++ nl)].

(** [main]: exit status and effects, oldest first. *)
Definition main (p : platform) : Z * list effect :=
  let done := banner in
  if negb (chip_opens p) then
    (1, done ++ [Perror "Failed to open GPIO chip"])
  else if negb (led_line_found p) then
    cleanup_chip (done ++ [Perror "Failed to get LED line"])
  else if negb (button_line_found p) then
    cleanup_chip (done ++ [Perror "Failed to get button line"])
  else if request_output_ret p <? 0 then
    cleanup_chip (done ++ [Perror "Failed to request LED output"])
  else if request_input_ret p <? 0 then
    release_led (done ++ [Perror "Failed to request button input"])
  else
    let '(ret, _, init_effects) := pwm_init p LED_PIN in
    let done := done ++ init_effects in
    if ret <? 0 then
      release_button (done ++ [Eprintf ("Failed to initialize PWM" ++ nl)])
    else
      release_button
        (done ++ usage
              ++ [ControlLoop; Printf (nl ++ "Cleaning up..." ++ nl); PwmCleanup]).

Definition exit_status (r : Z * list effect) : Z := fst r.
Definition effects (r : Z * list effect) : list effect := snd r.

(** The acquisitions of [main], in the order it attempts them. *)
Inductive acquisition : Type :=
| ChipOpen | LedLine | ButtonLine | OutputRequest | InputRequest
| MutexInit | ThreadCreate.

(** The first acquisition the platform refuses, if any. *)
Definition first_failure (p : platform) : option acquisition :=
  if negb (chip_opens p) then Some ChipOpen
  else if negb (led_line_found p) then Some LedLine
  else if negb (button_line_found p) then Some ButtonLine
  else if request_output_ret p <? 0 then Some OutputRequest
  else if request_input_ret p <? 0 then Some InputRequest
  else if negb (mutex_init_ret p =? 0) then Some MutexInit
  else if negb (thread_create_ret p =? 0) then Some ThreadCreate
  else None.

(** The diagnostic the source prints for each acquisition. *)
Definition diagnostic (a : acquisition) : string :=
  match a with
  | ChipOpen => "Failed to open GPIO chip"
  | LedLine => "Failed to get LED line"
  | ButtonLine => "Failed to get button line"
  | OutputRequest => "Failed to request LED output"
  | InputRequest => "Failed to request button input"
  | MutexInit => "Mutex init failed"
  | ThreadCreate => "Thread creation failed"
  end.

Definition in_pwm_init (a : acquisition) : bool :=
  match a with
  | MutexInit | ThreadCreate => true
  | _ => false
  end.

(** A platform on which the LED line cannot be found. *)
Definition no_led_line : platform :=
  {| chip_opens := true; led_line_found := false; button_line_found := true;
     request_output_ret := 0; request_input_ret := 0;
     mutex_init_ret := 0; thread_create_ret := 0 |}.

End Startup.

(** ** Vocabulary of the properties *)

(** The operations that store into [pwm->duty_cycle]: the initialisation in
    [pwm_init] and [set_duty_cycle], which the manual mode and every
    animation go through. *)
Inductive duty_writer : Type :=
| ByInit (ln : Z)
| BySet (v : Z).

Definition apply_writer (pwm : pwm_control_t) (w : duty_writer) : pwm_control_t :=
  match w with
  | ByInit ln => pwm_init_fields ln
  | BySet v => set_duty_cycle pwm v
  end.

Definition after_writers (ln : Z) (ws : list duty_writer) : pwm_control_t :=
  fold_left apply_writer ws (pwm_init_fields ln).

(** The cycle as the design document words it: the high phase is emitted
    when [on_time > 0], the low phase when [off_time > 0]. *)
Definition cycle_by_phase (duty : Z) : list action :=
  (if 0 <? on_time_ns duty then [SetValue 1; NanoSleep (on_time_ns duty)] else [])
  ++ (if 0 <? off_time_ns duty then [SetValue 0; NanoSleep (off_time_ns duty)]
      else []).

(** The triangle wave 0, 2, ..., 100, 98, ..., 2, 0, ... *)
Definition triangle (n : nat) : Z :=
  let m := Z.of_nat n mod 100 in
  if m <=? 50 then 2 * m else 200 - 2 * m.

(** The leg the breathing animation is on after [n] calls. *)
Definition leg (n : nat) : Z :=
  if Z.of_nat n mod 100 <? 50 then 1 else -1.

(** The square wave that is low for 5 calls and high for 5 calls. *)
Definition square (n : nat) : Z :=
  if (Z.of_nat n / 5) mod 2 =? 0 then 0 else 100.

(** ** [nano_sleep]: the request handed to [nanosleep] *)

Module Timespec.

Record timespec : Type := mk_timespec {
  tv_sec : Z;
  tv_nsec : Z
}.

(** The initialiser of [req] in [nano_sleep]: C division and remainder
    by [1000000000L]. *)
Definition nano_sleep_req (nanoseconds : Z) : timespec :=
  {| tv_sec := Z.quot nanoseconds 1000000000;
     tv_nsec := Z.rem nanoseconds 1000000000 |}.

(** What [nanosleep] accepts: it fails with [EINVAL] on anything else. *)
Definition valid_timespec (t : timespec) : Prop :=
  0 <= tv_sec t /\ 0 <= tv_nsec t < 1000000000.

Definition timespec_ns (t : timespec) : Z :=
  tv_sec t * 1000000000 + tv_nsec t.

End Timespec.

(** ** The control loop of [main] *)

Module ControlLoop.

Import Animation.

(** The enumerators of [animation_mode_t], by their values. *)
Definition MODE_MANUAL : Z := 0.
Definition MODE_BREATHING : Z := 1.
Definition MODE_STROBE : Z := 2.
Definition MODE_SINE_WAVE : Z := 3.

Definition manual_brightness : Z := 50.

(** The local array [mode_names] of the loop body. *)
Definition mode_names : list string :=
  ["Manual (50%)"; "Breathing"; "Sine Wave"; "Strobe"]%string.

(** The globals and locals the loop reads and writes, the statics of the
    animations, the channel, and what [printf] has produced (newest first). *)
Record loop_state : Type := mk_loop {
  current_mode : Z;
  last_button_state : Z;
  animation_counter : Z;
  breathing : breathing_statics;
  strobe : strobe_statics;
  chan : pwm_control_t;
  printed : list string
}.

(** [sine_wave_animation]: the brightness is computed in floating point from
    the static [phase]; it is taken as given, and only the call of
    [set_duty_cycle] with it is modelled. *)
Definition sine_wave_animation (brightness : Z) (pwm : pwm_control_t)
  : pwm_control_t :=
  set_duty_cycle pwm brightness.

(** The [switch (current_mode)] of the loop body; it has no default. *)
Definition run_animation (sine : Z) (st : loop_state) : loop_state :=
  if current_mode st =? MODE_MANUAL then
    mk_loop (current_mode st) (last_button_state st) (animation_counter st)
      (breathing st) (strobe st)
      (set_duty_cycle (chan st) manual_brightness) (printed st)
  else if current_mode st =? MODE_BREATHING then
    let '(b, p, _) := breathing_animation (breathing st) (chan st) in
    mk_loop (current_mode st) (last_button_state st) (animation_counter st)
      b (strobe st) p (printed st)
  else if current_mode st =? MODE_SINE_WAVE then
    mk_loop (current_mode st) (last_button_state st) (animation_counter st)
      (breathing st) (strobe st)
      (sine_wave_animation sine (chan st)) (printed st)
  else if current_mode st =? MODE_STROBE then
    let '(s, p, _) := strobe_animation (strobe st) (chan st) in
    mk_loop (current_mode st) (last_button_state st) (animation_counter st)
      (breathing st) s p (printed st)
  else st.

(** One iteration of [while (running)]: [button_state] is what
    [gpiod_line_get_value] returned (0, 1, or -1 on error). *)
Definition loop_iteration (button_state sine : Z) (st : loop_state)
  : loop_state :=
  let pressed := (button_state =? 0) && (last_button_state st =? 1) in
  let mode :=
    if pressed then Z.rem (wrap_int (current_mode st + 1)) 4
    else current_mode st in
  let out :=
    if pressed
    then ("Mode: " ++ nth (Z.to_nat mode) mode_names "" ++ nl)%string
           :: printed st
    else printed st in
  let c := wrap_int (animation_counter st + 1) in
  if 10 <=? c then
    run_animation sine
      (mk_loop mode button_state 0 (breathing st) (strobe st) (chan st) out)
  else
    mk_loop mode button_state c (breathing st) (strobe st) (chan st) out.

(** The iterations of the loop, one per pair of a button reading and a sine
    brightness. *)
Definition control_loop (inputs : list (Z * Z)) (st : loop_state)
  : loop_state :=
  fold_left (fun st i => loop_iteration (fst i) (snd i) st) inputs st.

(** The state in which [main] enters the loop. *)
Definition loop_entry : loop_state :=
  mk_loop MODE_MANUAL 1 0 breathing_initial strobe_initial
    (pwm_init_fields LED_PIN) [].

(** Every variable within the range its C type is used at. *)
Definition in_ranges (st : loop_state) : Prop :=
  0 <= current_mode st <= 3
  /\ 0 <= animation_counter st <= 9
  /\ 0 <= brightness (breathing st) <= 100
  /\ (direction (breathing st) = 1 \/ direction (breathing st) = -1)
  /\ (state (strobe st) = 0 \/ state (strobe st) = 1)
  /\ 0 <= counter (strobe st) <= 4
  /\ 0 <= duty_cycle (chan st) <= 100.

(** Button readings: the button is pressed and released once per element. *)
Definition press_release (sines : list (Z * Z)) : list (Z * Z) :=
  flat_map (fun s => [(0, fst s); (1, snd s)]) sines.

(** Button readings that are all [b]. *)
Definition steady (b : Z) (sines : list Z) : list (Z * Z) :=
  map (fun s => (b, s)) sines.

End ControlLoop.

(** ** Observations on the runs of the two threads *)

Module Waveform.

Import Generator.

(** The level the line has after the writes of a trace, from the level it
    had at the start: the value of the newest write that succeeded. *)
Fixpoint line_level (init : Z) (tr : list event) : Z :=
  match tr with
  | [] => init
  | EvWrite v ret :: tr' => if ret =? 0 then v else line_level init tr'
  | _ :: tr' => line_level init tr'
  end.

(** The newest write of a trace, with what it returned. *)
Fixpoint last_write (tr : list event) : option (Z * Z) :=
  match tr with
  | [] => None
  | EvWrite v ret :: _ => Some (v, ret)
  | _ :: tr' => last_write tr'
  end.

(** What the generation thread may ask of the outside world. *)
Definition action_ok (a : action) : Prop :=
  match a with
  | SetValue v => v = 0 \/ v = 1
  | NanoSleep ns => 0 < ns <= PWM_PERIOD_NS
  end.

Definition event_ok (e : event) : Prop :=
  match e with
  | EvWrite v ret => (v = 0 \/ v = 1) /\ (ret = 0 \/ ret = -1)
  | EvSleep ns => 0 < ns <= PWM_PERIOD_NS
  | _ => True
  end.

(** The cycle in progress is the rest of the cycle of one duty cycle. *)
Definition one_cycle (pc : thread_pc) : Prop :=
  match pc with
  | InCycle todo =>
      todo <> []
      /\ exists d done, 0 <= d <= 100 /\ cycle_actions d = done ++ todo
  | _ => True
  end.

Definition wave_inv (init : Z) (s : system) : Prop :=
  one_cycle (tpc s)
  /\ Forall event_ok (trace s)
  /\ level (hw s) = line_level init (trace s)
  /\ (tpc s = Returned -> exists ret, last_write (trace s) = Some (0, ret)).

(** The schedule of a shutdown: the control thread leaves its loop, the
    generation thread gets eight steps, the control thread five more. *)
Definition shutdown_schedule : list choice :=
  [RunMain None] ++ repeat RunThread 8 ++ repeat (RunMain None) 5.

Definition main_steps_left (pc : main_pc) : nat :=
  match pc with
  | InMainLoop => 6
  | AtJoin => 5
  | AtMutexDestroy => 4
  | AtReleaseButton => 3
  | AtReleaseLed => 2
  | AtCloseChip => 1
  | Exited => 0
  end.





End Waveform.

(** ** Observations on the effects of [main] *)

Module Cleanup.

Import Startup.

Definition is_release (pin : Z) (e : effect) : bool :=
  match e with
  | LineRelease q => q =? pin
  | _ => false
  end.

Definition is_chip_close (e : effect) : bool :=
  match e with
  | ChipClose => true
  | _ => false
  end.

(** The mutex is destroyed by [pwm_init] itself when the thread cannot be
    created, and by [pwm_cleanup] otherwise. *)
Definition destroys_mutex (e : effect) : bool :=
  match e with
  | MutexDestroy | PwmCleanup => true
  | _ => false
  end.

Definition is_perror (e : effect) : bool :=
  match e with
  | Perror _ => true
  | _ => false
  end.

Definition count (f : effect -> bool) (l : list effect) : nat :=
  List.length (filter f l).

(** What [main] has acquired on a platform, following the order of its
    attempts. *)
Definition led_requested (p : platform) : bool :=
  chip_opens p && led_line_found p && button_line_found p
  && negb (request_output_ret p <? 0).

Definition button_requested (p : platform) : bool :=
  led_requested p && negb (request_input_ret p <? 0).

Definition mutex_created (p : platform) : bool :=
  button_requested p && (mutex_init_ret p =? 0).

End Cleanup.

(** ** A run of the control loop that reaches the strobe *)

Module Scenarios.

Import ControlLoop.

(** Ten idle iterations (manual mode sets the duty cycle to 50), two
    presses of the button (breathing, then strobe), and [idle] more idle
    iterations. *)
Definition into_strobe (idle : nat) : list (Z * Z) :=
  steady 1 (repeat 0 10) ++ press_release [(0, 0); (0, 0)]
  ++ steady 1 (repeat 0 idle).

(** The duty cycle after each of the first [n] calls of the strobe
    animation on a channel, from the initial statics. *)
Definition strobe_duties (pwm : pwm_control_t) (n : nat) : list Z :=
  map (fun k =>
         duty_cycle
           (Animation.channel_after
              (Animation.repeat_calls Animation.strobe_animation k
                 Animation.strobe_initial pwm)))
      (seq 1 n).

End Scenarios.

(** * Properties *)

(** Linear arithmetic with division and remainder by constants. *)
Ltac lia_mod := Z.div_mod_to_equations; lia.

(** ** C integers *)

Lemma wrap_int_small (z : Z) : INT_MIN <= z <= INT_MAX -> wrap_int z = z.
Proof.
  unfold INT_MIN, INT_MAX, wrap_int. intros H.
  rewrite Z.mod_small; lia.
Qed.

Lemma wrap_long_small (z : Z) : - 2 ^ 63 <= z < 2 ^ 63 -> wrap_long z = z.
Proof.
  unfold wrap_long. intros H.
  rewrite Z.mod_small; lia.
Qed.

Lemma PWM_PERIOD_NS_value : PWM_PERIOD_NS = 1000000.
Proof. reflexivity. Qed.

(** ** The duty-cycle accessor *)

Lemma set_duty_cycle_clamps (pwm : pwm_control_t) (v : Z) :
  duty_cycle (set_duty_cycle pwm v) = Z.min 100 (Z.max 0 v).
Proof.
  unfold set_duty_cycle; simpl.
  destruct (v <? 0) eqn:Hlo.
  - apply Z.ltb_lt in Hlo. simpl. lia.
  - apply Z.ltb_ge in Hlo.
    destruct (100 <? v) eqn:Hhi;
      [apply Z.ltb_lt in Hhi | apply Z.ltb_ge in Hhi]; lia.
Qed.

Lemma set_duty_cycle_range (pwm : pwm_control_t) (v : Z) :
  0 <= duty_cycle (set_duty_cycle pwm v) <= 100.
Proof. rewrite set_duty_cycle_clamps. lia. Qed.

Lemma set_duty_cycle_active (pwm : pwm_control_t) (v : Z) :
  active (set_duty_cycle pwm v) = active pwm.
Proof. reflexivity. Qed.

Lemma set_duty_cycle_in_range (pwm : pwm_control_t) (v : Z) :
  0 <= v <= 100 -> duty_cycle (set_duty_cycle pwm v) = v.
Proof. intros H. rewrite set_duty_cycle_clamps. lia. Qed.

Lemma after_writers_range (ws : list duty_writer) (pwm : pwm_control_t) :
  0 <= duty_cycle pwm <= 100 ->
  0 <= duty_cycle (fold_left apply_writer ws pwm) <= 100.
Proof.
  revert pwm.
  induction ws as [| w ws IH]; intros pwm Hpwm; simpl.
  - exact Hpwm.
  - apply IH. destruct w as [ln | v].
    + simpl. lia.
    + exact (set_duty_cycle_range pwm v).
Qed.

(** ** The timing of one cycle *)

Lemma on_time_ns_exact (duty : Z) :
  0 <= duty <= 100 -> on_time_ns duty = 10000 * duty.
Proof.
  intros H. unfold on_time_ns.
  rewrite PWM_PERIOD_NS_value.
  rewrite wrap_int_small by (unfold INT_MIN, INT_MAX; lia).
  replace (1000000 * duty) with (10000 * duty * 100) by lia.
  apply Z.quot_mul. lia.
Qed.

Lemma off_time_ns_exact (duty : Z) :
  0 <= duty <= 100 -> off_time_ns duty = 1000000 - 10000 * duty.
Proof.
  intros H. unfold off_time_ns.
  rewrite on_time_ns_exact by exact H.
  rewrite PWM_PERIOD_NS_value.
  apply wrap_long_small. lia.
Qed.

Lemma cycle_actions_cases (duty : Z) :
  0 <= duty <= 100 ->
  (duty = 0 /\ cycle_actions duty = [SetValue 0; NanoSleep PWM_PERIOD_NS])
  \/ (duty = 100 /\ cycle_actions duty = [SetValue 1; NanoSleep PWM_PERIOD_NS])
  \/ (0 < duty < 100 /\
      cycle_actions duty =
        [SetValue 1; NanoSleep (10000 * duty);
         SetValue 0; NanoSleep (1000000 - 10000 * duty)]).
Proof.
  intros H. unfold cycle_actions.
  rewrite on_time_ns_exact, off_time_ns_exact by exact H.
  rewrite PWM_PERIOD_NS_value.
  destruct (0 <? duty) eqn:Hpos; destruct (duty <? 100) eqn:Hlt;
    try apply Z.ltb_lt in Hpos; try apply Z.ltb_ge in Hpos;
    try apply Z.ltb_lt in Hlt; try apply Z.ltb_ge in Hlt.
  - right; right. split; [lia | reflexivity].
  - right; left. assert (duty = 100) by lia. subst duty. split; reflexivity.
  - left. assert (duty = 0) by lia. subst duty. split; reflexivity.
  - lia.
Qed.

Lemma sleep_total_cycle (duty : Z) :
  0 <= duty <= 100 -> sleep_total (cycle_actions duty) = PWM_PERIOD_NS.
Proof.
  intros H.
  destruct (cycle_actions_cases duty H) as [[_ E] | [[_ E] | [_ E]]];
    rewrite E; rewrite ?PWM_PERIOD_NS_value;
    unfold sleep_total; cbn [fold_right sleep_of]; lia.
Qed.

(** C1.  [set_duty_cycle] stores the argument clamped into [0,100], for
    every argument; -5 gives 0 and 150 gives 100.  [pwm_init] stores 0
    whatever the outcome of the mutex and thread creation.  Hence the duty
    cycle lies in [0,100] after any sequence of the operations that store
    into it, and in every state the running program reaches under any
    schedule.  A call with an out-of-range argument prints nothing and
    leaves the control thread in its main loop. *)
Theorem C1_duty_cycle_clamped :
  (forall pwm v, duty_cycle (set_duty_cycle pwm v) = Z.min 100 (Z.max 0 v))
  /\ (forall pwm, duty_cycle (set_duty_cycle pwm (-5)) = 0)
  /\ (forall pwm, duty_cycle (set_duty_cycle pwm 150) = 100)
  /\ (forall p ln, duty_cycle (snd (fst (Startup.pwm_init p ln))) = 0)
  /\ (forall ln ws, 0 <= duty_cycle (after_writers ln ws) <= 100)
  /\ (forall ln g sch,
        0 <= duty_cycle (Generator.pwm (Generator.run sch (Generator.started ln g)))
          <= 100)
  /\ (forall pwm g con t tr v,
        let s := Generator.mk_system pwm g con t Generator.InMainLoop tr in
        Generator.console (Generator.main_step (Some v) s) = con
        /\ Generator.mpc (Generator.main_step (Some v) s) = Generator.InMainLoop).
Proof.
  split; [exact set_duty_cycle_clamps |].
  split; [reflexivity |].
  split; [reflexivity |].
  split.
  { intros p ln. unfold Startup.pwm_init.
    destruct (negb (Startup.mutex_init_ret p =? 0));
      [| destruct (negb (Startup.thread_create_ret p =? 0))]; reflexivity. }
  split.
  { intros ln ws. unfold after_writers. apply after_writers_range. simpl. lia. }
  split.
  { intros ln g sch. unfold Generator.run.
    assert (Hgen : forall s,
               0 <= duty_cycle (Generator.pwm s) <= 100 ->
               0 <= duty_cycle
                      (Generator.pwm
                         (fold_left (fun s c => Generator.step c s) sch s)) <= 100).
    { induction sch as [| c sch IH]; intros s Hs; simpl; [exact Hs |].
      apply IH. destruct c as [| [v |]]; simpl.
      - unfold Generator.pwm_thread_step.
        destruct (Generator.tpc s) as [| | [| [v | ns] todo] | |]; simpl;
          try exact Hs.
        + destruct (active (Generator.pwm s)); exact Hs.
        + destruct (Generator.gpiod_line_set_value (Generator.hw s) v); exact Hs.
        + destruct (Generator.gpiod_line_set_value (Generator.hw s) 0); exact Hs.
      - unfold Generator.main_step.
        destruct (Generator.mpc s); try exact Hs.
        + exact (set_duty_cycle_range (Generator.pwm s) v).
        + destruct (Generator.tpc s); exact Hs.
      - unfold Generator.main_step.
        destruct (Generator.mpc s); simpl; try exact Hs.
        destruct (Generator.tpc s); exact Hs. }
    apply Hgen. simpl. lia. }
  intros pwm g con t tr v. simpl. split; reflexivity.
Qed.

(** C2.  For a duty cycle in [0,100] the on-time and the off-time the loop
    computes add up to the period exactly, and the on-time is the exact
    quotient [period * duty / 100] rounded down by less than one time unit. *)
Theorem C2_on_off_partition (duty : Z) :
  0 <= duty <= 100 ->
  on_time_ns duty + off_time_ns duty = PWM_PERIOD_NS
  /\ 0 <= PWM_PERIOD_NS * duty - 100 * on_time_ns duty < 100.
Proof.
  intros H.
  rewrite on_time_ns_exact, off_time_ns_exact by exact H.
  rewrite PWM_PERIOD_NS_value. lia.
Qed.

Lemma C2_on_off_partition_witness :
  on_time_ns 25 + off_time_ns 25 = PWM_PERIOD_NS
  /\ 0 <= PWM_PERIOD_NS * 25 - 100 * on_time_ns 25 < 100.
Proof. apply (C2_on_off_partition 25). lia. Defined.

(** C3.  For a duty cycle [d] in [0,100] the cycle the loop emits is the
    cycle of the design: the line is written high and the loop sleeps
    [on_time] exactly when [on_time > 0], and it is written low and the loop
    sleeps [off_time] exactly when [off_time > 0].  At 0 there is one low
    write and a full period of sleep, at 100 one high write and a full
    period of sleep.  Every sleep is strictly positive and the writes of a
    cycle are one of: low; high; high then low. *)
Theorem C3_cycle_phases (d : Z) :
  0 <= d <= 100 ->
  cycle_actions d = cycle_by_phase d
  /\ (In (SetValue 1) (cycle_actions d) <-> 0 < on_time_ns d)
  /\ (In (SetValue 0) (cycle_actions d) <-> 0 < off_time_ns d)
  /\ (d = 0 -> cycle_actions d = [SetValue 0; NanoSleep PWM_PERIOD_NS])
  /\ (d = 100 -> cycle_actions d = [SetValue 1; NanoSleep PWM_PERIOD_NS])
  /\ (forall ns, In ns (sleeps_of (cycle_actions d)) -> 0 < ns)
  /\ (writes_of (cycle_actions d) = [0]
      \/ writes_of (cycle_actions d) = [1]
      \/ writes_of (cycle_actions d) = [1; 0]).
Proof.
  intros H.
  assert (Hon := on_time_ns_exact d H).
  assert (Hoff := off_time_ns_exact d H).
  split.
  { unfold cycle_actions, cycle_by_phase. rewrite Hon, Hoff.
    replace (0 <? 10000 * d) with (0 <? d)
      by (destruct (0 <? d) eqn:E; symmetry;
          [apply Z.ltb_lt; apply Z.ltb_lt in E | apply Z.ltb_ge; apply Z.ltb_ge in E];
          lia).
    replace (0 <? 1000000 - 10000 * d) with (d <? 100)
      by (destruct (d <? 100) eqn:E; symmetry;
          [apply Z.ltb_lt; apply Z.ltb_lt in E | apply Z.ltb_ge; apply Z.ltb_ge in E];
          lia).
    reflexivity. }
  rewrite Hon, Hoff.
  destruct (cycle_actions_cases d H) as [[Hd E] | [[Hd E] | [Hd E]]];
    rewrite E; rewrite ?PWM_PERIOD_NS_value;
    unfold writes_of, sleeps_of; cbn [flat_map app In].
  - split; [split; [intros [C | [C | []]]; discriminate | lia] |].
    split; [split; [lia | intros _; left; reflexivity] |].
    split; [reflexivity |].
    split; [lia |].
    split; [intros ns [E1 | []]; lia |].
    left; reflexivity.
  - split; [split; [lia | intros _; left; reflexivity] |].
    split; [split; [intros [C | [C | []]]; discriminate | lia] |].
    split; [lia |].
    split; [reflexivity |].
    split; [intros ns [E1 | []]; lia |].
    right; left; reflexivity.
  - split; [split; [lia | intros _; left; reflexivity] |].
    split; [split; [lia | intros _; right; right; left; reflexivity] |].
    split; [lia |].
    split; [lia |].
    split; [intros ns [E1 | [E1 | []]]; lia |].
    right; right; reflexivity.
Qed.

Lemma C3_cycle_phases_witness :
  cycle_actions 0 = [SetValue 0; NanoSleep PWM_PERIOD_NS].
Proof.
  apply (C3_cycle_phases 0); [lia | reflexivity].
Defined.

(** ** The animations *)

Section AnimationFacts.
Import Animation.

Lemma triangle_range (n : nat) : 0 <= triangle n <= 100.
Proof.
  unfold triangle.
  pose proof (Z.mod_pos_bound (Z.of_nat n) 100 ltac:(lia)) as Hm.
  destruct (Z.of_nat n mod 100 <=? 50) eqn:E;
    [apply Z.leb_le in E | apply Z.leb_gt in E]; lia.
Qed.

Lemma leg_unit (n : nat) : leg n = 1 \/ leg n = -1.
Proof. unfold leg. destruct (Z.of_nat n mod 100 <? 50); auto. Qed.

Lemma triangle_step (n : nat) : triangle (S n) = triangle n + 2 * leg n.
Proof.
  unfold triangle, leg. rewrite Nat2Z.inj_succ.
  destruct (Z.succ (Z.of_nat n) mod 100 <=? 50) eqn:E1;
    [apply Z.leb_le in E1 | apply Z.leb_gt in E1];
    (destruct (Z.of_nat n mod 100 <=? 50) eqn:E2;
     [apply Z.leb_le in E2 | apply Z.leb_gt in E2]);
    (destruct (Z.of_nat n mod 100 <? 50) eqn:E3;
     [apply Z.ltb_lt in E3 | apply Z.ltb_ge in E3]); lia_mod.
Qed.

Lemma leg_flip (n : nat) :
  leg (S n) <> leg n <-> triangle (S n) = 0 \/ triangle (S n) = 100.
Proof.
  unfold triangle, leg. rewrite Nat2Z.inj_succ.
  destruct (Z.succ (Z.of_nat n) mod 100 <=? 50) eqn:E1;
    [apply Z.leb_le in E1 | apply Z.leb_gt in E1];
    (destruct (Z.succ (Z.of_nat n) mod 100 <? 50) eqn:E2;
     [apply Z.ltb_lt in E2 | apply Z.ltb_ge in E2]);
    (destruct (Z.of_nat n mod 100 <? 50) eqn:E3;
     [apply Z.ltb_lt in E3 | apply Z.ltb_ge in E3]);
    split; intros; lia_mod.
Qed.

(** One call of the breathing animation from the state the triangle wave
    describes. *)
Lemma breathing_animation_step (n : nat) (st : breathing_statics)
      (pwm : pwm_control_t) :
  brightness st = triangle n -> direction st = leg n ->
  let r := breathing_animation st pwm in
  brightness (statics_after r) = triangle (S n)
  /\ direction (statics_after r) = leg (S n)
  /\ duty_cycle (channel_after r) = triangle (S n)
  /\ calls_of r = [triangle (S n)].
Proof.
  intros Hb Hd.
  assert (Hnext : wrap_int (brightness st + wrap_int (direction st * 2))
                  = triangle n + 2 * leg n).
  { pose proof (triangle_range n). rewrite Hb, Hd.
    destruct (leg_unit n) as [-> | ->].
    - replace (wrap_int (1 * 2)) with 2 by reflexivity.
      rewrite wrap_int_small by (unfold INT_MIN, INT_MAX; lia). lia.
    - replace (wrap_int (-1 * 2)) with (-2) by reflexivity.
      rewrite wrap_int_small by (unfold INT_MIN, INT_MAX; lia). lia. }
  pose proof (triangle_range n) as Hr0.
  pose proof (triangle_range (S n)) as Hr.
  pose proof (triangle_step n) as Hs.
  pose proof (leg_flip n) as Hf.
  unfold breathing_animation, statics_after, channel_after, calls_of.
  rewrite Hnext.
  cbn zeta. cbn [fst snd].
  destruct (100 <=? triangle n + 2 * leg n) eqn:E1;
    [apply Z.leb_le in E1 | apply Z.leb_gt in E1].
  - cbn [brightness direction].
    assert (E : triangle (S n) = 100) by lia.
    rewrite set_duty_cycle_in_range by lia. rewrite E.
    repeat split.
    enough (leg n = 1 /\ leg (S n) <> leg n) by
        (destruct (leg_unit (S n)); lia).
    split; [destruct (leg_unit n); lia | apply Hf; lia].
  - destruct (triangle n + 2 * leg n <=? 0) eqn:E2;
      [apply Z.leb_le in E2 | apply Z.leb_gt in E2];
      cbn [brightness direction].
    + assert (E : triangle (S n) = 0) by lia.
      rewrite set_duty_cycle_in_range by lia. rewrite E.
      repeat split.
      enough (leg n = -1 /\ leg (S n) <> leg n) by
          (destruct (leg_unit (S n)); lia).
      split; [destruct (leg_unit n); lia | apply Hf; lia].
    + rewrite set_duty_cycle_in_range by lia. rewrite <- Hs.
      repeat split.
      rewrite Hd.
      destruct (Z.eq_dec (leg (S n)) (leg n)) as [Heq | Hne]; [congruence |].
      apply Hf in Hne. lia.
Qed.

Lemma breathing_after (n : nat) (pwm : pwm_control_t) :
  let r := repeat_calls breathing_animation n breathing_initial pwm in
  brightness (statics_after r) = triangle n
  /\ direction (statics_after r) = leg n
  /\ calls_of r = map triangle (seq 1 n)
  /\ (n <> O -> duty_cycle (channel_after r) = triangle n).
Proof.
  induction n as [| n IH].
  - cbn. repeat split; try reflexivity. intros C. now elim C.
  - cbn zeta in IH |- *.
    cbn [repeat_calls].
    destruct (repeat_calls breathing_animation n breathing_initial pwm)
      as [[st1 pwm1] log1].
    unfold statics_after, channel_after, calls_of in IH. cbn [fst snd] in IH.
    destruct IH as (Hb & Hd & Hlog & _).
    pose proof (breathing_animation_step n st1 pwm1 Hb Hd) as Hstep.
    cbn zeta in Hstep.
    destruct (breathing_animation st1 pwm1) as [[st2 pwm2] log2].
    unfold statics_after, channel_after, calls_of in *. cbn [fst snd] in *.
    destruct Hstep as (Hb2 & Hd2 & Hduty & Hcalls).
    split; [exact Hb2 |]. split; [exact Hd2 |].
    split; [| intros _; exact Hduty].
    rewrite seq_S, map_app, Hlog, Hcalls. reflexivity.
Qed.

(** C5.  From brightness 0 and direction +1, the [n]-th call of the
    breathing animation publishes the [n]-th value of the triangle wave
    2, 4, ..., 100, 98, ..., 0, 2, ... (period 100 calls).  Each call moves
    the brightness by exactly 2 in the current direction, so each leg is
    strictly monotonic, and the direction is reversed by a call exactly when
    that call lands on 0 or on 100. *)
Theorem C5_breathing_sequence (n : nat) (pwm : pwm_control_t) :
  let before := repeat_calls breathing_animation n breathing_initial pwm in
  let after := repeat_calls breathing_animation (S n) breathing_initial pwm in
  calls_of after = map triangle (seq 1 (S n))
  /\ duty_cycle (channel_after after) = triangle (S n)
  /\ map triangle (seq 1 100)
     = map (fun k => 2 * Z.of_nat k) (seq 1 50)
       ++ map (fun k => 200 - 2 * Z.of_nat k) (seq 51 50)
  /\ triangle (n + 100) = triangle n
  /\ (direction (statics_after before) = 1
      \/ direction (statics_after before) = -1)
  /\ brightness (statics_after after)
     = brightness (statics_after before) + 2 * direction (statics_after before)
  /\ (direction (statics_after after) <> direction (statics_after before)
      <-> brightness (statics_after after) = 0
          \/ brightness (statics_after after) = 100).
Proof.
  intros before after.
  destruct (breathing_after n pwm) as (Hb & Hd & _ & _).
  destruct (breathing_after (S n) pwm) as (Hb' & Hd' & Hlog' & Hduty').
  fold before in Hb, Hd. fold after in Hb', Hd', Hlog', Hduty'.
  split; [exact Hlog' |].
  split; [apply Hduty'; discriminate |].
  split; [vm_compute; reflexivity |].
  split.
  { unfold triangle. rewrite Nat2Z.inj_add.
    replace (Z.of_nat n + Z.of_nat 100) with (Z.of_nat n + 1 * 100) by lia.
    rewrite Z.mod_add by lia. reflexivity. }
  rewrite Hb, Hd, Hb', Hd'.
  split; [apply leg_unit |].
  split; [apply triangle_step | apply leg_flip].
Qed.

Lemma square_values (n : nat) : square n = 0 \/ square n = 100.
Proof. unfold square. destruct ((Z.of_nat n / 5) mod 2 =? 0); auto. Qed.

Lemma square_block (k j : nat) :
  (j < 10)%nat ->
  square (10 * k + j) = if (j <? 5)%nat then 0 else 100.
Proof.
  intros Hj. unfold square.
  destruct (j <? 5)%nat eqn:E;
    [apply Nat.ltb_lt in E | apply Nat.ltb_ge in E].
  - replace (Z.of_nat (10 * k + j) / 5) with (2 * Z.of_nat k) by lia_mod.
    replace ((2 * Z.of_nat k) mod 2) with 0 by lia_mod. reflexivity.
  - replace (Z.of_nat (10 * k + j) / 5) with (2 * Z.of_nat k + 1) by lia_mod.
    replace ((2 * Z.of_nat k + 1) mod 2) with 1 by lia_mod. reflexivity.
Qed.

Lemma strobe_after (n : nat) (pwm : pwm_control_t) :
  let r := repeat_calls strobe_animation n strobe_initial pwm in
  state (statics_after r) = (Z.of_nat n / 5) mod 2
  /\ counter (statics_after r) = Z.of_nat n mod 5
  /\ duty_cycle (channel_after r)
     = (if Z.of_nat n <? 5 then duty_cycle pwm else square n)
  /\ Z.of_nat (List.length (calls_of r)) = Z.of_nat n / 5
  /\ Forall (fun v => v = 0 \/ v = 100) (calls_of r).
Proof.
  induction n as [| n IH].
  - cbn. repeat split; constructor.
  - cbn zeta in IH |- *. cbn [repeat_calls].
    destruct (repeat_calls strobe_animation n strobe_initial pwm)
      as [[st1 pwm1] log1].
    unfold statics_after, channel_after, calls_of in IH |- *.
    cbn [fst snd] in IH.
    destruct IH as (Hs & Hc & Hduty & Hlen & Hall).
    unfold strobe_animation.
    assert (Hwrap : wrap_int (counter st1 + 1) = Z.of_nat n mod 5 + 1).
    { rewrite Hc. apply wrap_int_small. unfold INT_MIN, INT_MAX. lia_mod. }
    rewrite Hwrap. rewrite Nat2Z.inj_succ.
    destruct (5 <=? Z.of_nat n mod 5 + 1) eqn:E;
      [apply Z.leb_le in E | apply Z.leb_gt in E]; cbn [fst snd state counter].
    + assert (Hq : Z.succ (Z.of_nat n) / 5 = Z.of_nat n / 5 + 1) by lia_mod.
      assert (Hsq : (if (if state st1 =? 0 then 1 else 0) =? 0 then 0 else 100)
                    = square (S n)).
      { unfold square. rewrite Nat2Z.inj_succ, Hq, Hs.
        destruct ((Z.of_nat n / 5) mod 2 =? 0) eqn:E0;
          [apply Z.eqb_eq in E0 | apply Z.eqb_neq in E0];
          (destruct (((Z.of_nat n / 5 + 1) mod 2) =? 0) eqn:E1;
           [apply Z.eqb_eq in E1 | apply Z.eqb_neq in E1]);
          try reflexivity; lia_mod. }
      split.
      { rewrite Hq, Hs.
        destruct ((Z.of_nat n / 5) mod 2 =? 0) eqn:E0;
          [apply Z.eqb_eq in E0 | apply Z.eqb_neq in E0]; lia_mod. }
      split; [lia_mod |].
      split.
      { rewrite Hsq.
        replace (Z.succ (Z.of_nat n) <? 5) with false
          by (symmetry; apply Z.ltb_ge; lia_mod).
        apply set_duty_cycle_in_range.
        destruct (square_values (S n)); lia. }
      split.
      { rewrite length_app, Nat2Z.inj_add, Hlen, Hq. reflexivity. }
      apply Forall_app. split; [exact Hall |].
      constructor; [| constructor].
      rewrite Hsq. apply square_values.
    + split; [rewrite Hs; f_equal; lia_mod |].
      split; [lia_mod |].
      split.
      { rewrite Hduty.
        destruct (Z.of_nat n <? 5) eqn:E5;
          [apply Z.ltb_lt in E5 | apply Z.ltb_ge in E5].
        - replace (Z.succ (Z.of_nat n) <? 5) with true
            by (symmetry; apply Z.ltb_lt; lia_mod).
          reflexivity.
        - replace (Z.succ (Z.of_nat n) <? 5) with false
            by (symmetry; apply Z.ltb_ge; lia).
          unfold square. rewrite Nat2Z.inj_succ.
          replace (Z.succ (Z.of_nat n) / 5) with (Z.of_nat n / 5) by lia_mod.
          reflexivity. }
      split.
      { rewrite app_nil_r, Hlen. lia_mod. }
      rewrite app_nil_r. exact Hall.
Qed.

(** C6, counterexample.  Counted call by call from counter 0 and state 0,
    the duty cycle is not held at 0 for five calls: on a channel fresh from
    [pwm_init] it is 0 after each of the first four calls and 100 after the
    fifth.  Nor is it free of other values: on a channel at 50 the first
    four calls leave 50 in place, and the control loop does enter the
    strobe in that state (ten idle iterations put the manual 50 on the
    channel, two presses select the strobe with its statics untouched), and
    36 iterations later, after four calls of the strobe, the duty cycle is
    still 50. *)
Lemma C6_strobe_first_block :
  Scenarios.strobe_duties (pwm_init_fields LED_PIN) 10
  = [0; 0; 0; 0; 100; 100; 100; 100; 100; 0]
  /\ Scenarios.strobe_duties (set_duty_cycle (pwm_init_fields LED_PIN) 50) 10
     = [50; 50; 50; 50; 100; 100; 100; 100; 100; 0]
  /\ (let st := ControlLoop.control_loop (Scenarios.into_strobe 0)
                  ControlLoop.loop_entry in
      ControlLoop.current_mode st = ControlLoop.MODE_STROBE
      /\ ControlLoop.strobe st = strobe_initial
      /\ duty_cycle (ControlLoop.chan st) = 50)
  /\ (let st := ControlLoop.control_loop (Scenarios.into_strobe 36)
                  ControlLoop.loop_entry in
      ControlLoop.current_mode st = ControlLoop.MODE_STROBE
      /\ ControlLoop.strobe st = {| state := 0; counter := 4 |}
      /\ duty_cycle (ControlLoop.chan st) = 50).
Proof.
  split; [vm_compute; reflexivity |].
  split; [vm_compute; reflexivity |].
  split; vm_compute; repeat split; reflexivity.
Qed.

(** C6, amended.  From counter 0 and state 0, the first four calls of the
    strobe animation leave the duty cycle as they found it (0 on a channel
    fresh from [pwm_init]); after [n >= 5] calls it is the square wave at
    [n], which is 100 for the five calls 5..9, 0 for the five calls 10..14,
    and so on with period 10.  The state flips, and [set_duty_cycle] is
    called, at every fifth call and at no other: after [n] calls the state
    is [(n / 5) mod 2], the counter is [n mod 5], and there have been
    [n / 5] calls of [set_duty_cycle], each with 0 or 100. *)
Theorem C6_strobe_square (n : nat) (ln : Z) (pwm : pwm_control_t) :
  let fresh := repeat_calls strobe_animation n strobe_initial (pwm_init_fields ln) in
  let r := repeat_calls strobe_animation n strobe_initial pwm in
  duty_cycle (channel_after fresh) = square n
  /\ (forall k : nat,
        map square (map (Nat.add (10 * k)) (seq 0 10))
        = [0; 0; 0; 0; 0; 100; 100; 100; 100; 100])
  /\ state (statics_after r) = (Z.of_nat n / 5) mod 2
  /\ counter (statics_after r) = Z.of_nat n mod 5
  /\ Z.of_nat (List.length (calls_of r)) = Z.of_nat n / 5
  /\ Forall (fun v => v = 0 \/ v = 100) (calls_of r)
  /\ duty_cycle (channel_after r)
     = (if Z.of_nat n <? 5 then duty_cycle pwm else square n).
Proof.
  intros fresh r.
  destruct (strobe_after n (pwm_init_fields ln)) as (_ & _ & Hfresh & _ & _).
  destruct (strobe_after n pwm) as (Hs & Hc & Hduty & Hlen & Hall).
  fold fresh in Hfresh. fold r in Hs, Hc, Hduty, Hlen, Hall.
  split.
  { rewrite Hfresh. cbn [pwm_init_fields duty_cycle].
    destruct (Z.of_nat n <? 5) eqn:E5; [| reflexivity].
    apply Z.ltb_lt in E5. unfold square.
    replace (Z.of_nat n / 5) with 0 by lia_mod. reflexivity. }
  split.
  { intros k. cbn [seq map].
    rewrite !square_block by lia. reflexivity. }
  repeat (split; [assumption |]). assumption.
Qed.

End AnimationFacts.

(** ** Start-up *)

Section StartupFacts.
Import Startup.

Ltac effect_in := cbv; repeat (first [left; reflexivity | right]).

Ltac effect_not_in :=
  let H := fresh "H" in
  intros H; cbv in H;
  repeat (destruct H as [H | H]; [discriminate H |]); exact H.

(** The outcome of [main] for each first failure. *)
Lemma main_by_first_failure (p : platform) :
  match first_failure p with
  | Some ChipOpen =>
      main p = (1, banner ++ [Perror (diagnostic ChipOpen)])
  | Some LedLine =>
      main p = cleanup_chip (banner ++ [Perror (diagnostic LedLine)])
  | Some ButtonLine =>
      main p = cleanup_chip (banner ++ [Perror (diagnostic ButtonLine)])
  | Some OutputRequest =>
      main p = cleanup_chip (banner ++ [Perror (diagnostic OutputRequest)])
  | Some InputRequest =>
      main p = release_led (banner ++ [Perror (diagnostic InputRequest)])
  | Some MutexInit =>
      main p = release_button
                 ((banner ++ [Perror (diagnostic MutexInit)])
                    ++ [Eprintf ("Failed to initialize PWM" ++ nl)])
  | Some ThreadCreate =>
      main p = release_button
                 ((banner ++ [Perror (diagnostic ThreadCreate); MutexDestroy])
                    ++ [Eprintf ("Failed to initialize PWM" ++ nl)])
  | None =>
      main p = release_button
                 ((banner ++ [ThreadCreated]) ++ usage
                    ++ [ControlLoop; Printf (nl ++ "Cleaning up..." ++ nl);
                        PwmCleanup])
  end.
Proof.
  unfold first_failure, main, pwm_init.
  destruct (negb (chip_opens p)); [reflexivity |].
  destruct (negb (led_line_found p)); [reflexivity |].
  destruct (negb (button_line_found p)); [reflexivity |].
  destruct (request_output_ret p <? 0); [reflexivity |].
  destruct (request_input_ret p <? 0); [reflexivity |].
  destruct (negb (mutex_init_ret p =? 0)); [reflexivity |].
  destruct (negb (thread_create_ret p =? 0)); reflexivity.
Qed.

(** When nothing fails the thread is created and the control loop runs. *)
Lemma main_success (p : platform) :
  first_failure p = None ->
  exit_status (main p) = 0
  /\ In ThreadCreated (effects (main p))
  /\ In ControlLoop (effects (main p))
  /\ In PwmCleanup (effects (main p)).
Proof.
  intros Hok. pose proof (main_by_first_failure p) as Hmain.
  rewrite Hok in Hmain. rewrite Hmain.
  split; [reflexivity |]. repeat split; effect_in.
Qed.

(** C8.  Whatever acquisition is the first to fail at start-up, [main]
    prints the diagnostic of that acquisition and returns without the
    control loop (and without [pwm_cleanup]) ever running.  When the failure
    is inside [pwm_init], that function returns -1, [main] additionally
    reports that the PWM could not be initialised, and no generation thread
    was created. *)
Theorem C8_startup_failure_fatal (p : platform) (a : acquisition) :
  first_failure p = Some a ->
  In (Perror (diagnostic a)) (effects (main p))
  /\ ~ In ControlLoop (effects (main p))
  /\ ~ In PwmCleanup (effects (main p))
  /\ ~ In ThreadCreated (effects (main p))
  /\ (in_pwm_init a = true ->
      fst (fst (pwm_init p LED_PIN)) = -1
      /\ ~ In ThreadCreated (snd (pwm_init p LED_PIN))
      /\ In (Eprintf ("Failed to initialize PWM" ++ nl)) (effects (main p))).
Proof.
  intros Hfail. pose proof (main_by_first_failure p) as Hmain.
  rewrite Hfail in Hmain.
  assert (Hinit : in_pwm_init a = true ->
                  fst (fst (pwm_init p LED_PIN)) = -1
                  /\ ~ In ThreadCreated (snd (pwm_init p LED_PIN))).
  { intros Ha. revert Hfail. unfold first_failure, pwm_init.
    destruct (negb (chip_opens p)); [intros [= <-]; discriminate Ha |].
    destruct (negb (led_line_found p)); [intros [= <-]; discriminate Ha |].
    destruct (negb (button_line_found p)); [intros [= <-]; discriminate Ha |].
    destruct (request_output_ret p <? 0); [intros [= <-]; discriminate Ha |].
    destruct (request_input_ret p <? 0); [intros [= <-]; discriminate Ha |].
    destruct (negb (mutex_init_ret p =? 0)).
    { intros _. split; [reflexivity | effect_not_in]. }
    destruct (negb (thread_create_ret p =? 0)).
    { intros _. split; [reflexivity | effect_not_in]. }
    discriminate. }
  destruct a; rewrite Hmain;
    (split; [effect_in |]);
    (split; [effect_not_in |]);
    (split; [effect_not_in |]);
    (split; [effect_not_in |]);
    intros Ha; try discriminate Ha;
    (split; [apply Hinit; exact Ha |]);
    (split; [apply Hinit; exact Ha | effect_in]).
Qed.

Lemma C8_startup_failure_fatal_witness :
  In (Perror "Failed to get LED line") (effects (main no_led_line))
  /\ ~ In ControlLoop (effects (main no_led_line)).
Proof.
  destruct (C8_startup_failure_fatal no_led_line LedLine eq_refl)
    as (Hdiag & Hloop & _).
  split; [exact Hdiag | exact Hloop].
Defined.

(** C10.  The exit status of [main] is 1 only when the chip cannot be
    opened.  After any later failure, as after a normal shutdown, control
    reaches the label [cleanup_chip], whose tail closes the chip, prints the
    termination message and returns 0. *)
Theorem C10_exit_status (p : platform) :
  match first_failure p with
  | Some ChipOpen =>
      exit_status (main p) = 1
      /\ effects (main p) = banner ++ [Perror "Failed to open GPIO chip"]
  | _ =>
      exit_status (main p) = 0
      /\ exists before,
           effects (main p)
           = before ++ [ChipClose; Printf ("PWM control terminated." ++ nl)]
  end.
Proof.
  pose proof (main_by_first_failure p) as Hmain.
  destruct (first_failure p) as [[] |]; rewrite Hmain;
    (split; [reflexivity |]);
    try reflexivity;
    unfold release_button, release_led, cleanup_chip, effects; cbn [snd];
    eexists; reflexivity.
Qed.

End StartupFacts.

(** ** The generation thread and shutdown *)

Section GeneratorFacts.
Import Generator.

Lemma since_mark (mark : event -> bool) (e : event) (tr : list event) :
  mark e = true -> since mark (e :: tr) = Some [].
Proof. intros H. simpl. rewrite H. reflexivity. Qed.

Lemma since_skip (mark : event -> bool) (e : event) (tr : list event) :
  mark e = false ->
  since mark (e :: tr) = option_map (cons e) (since mark tr).
Proof. intros H. simpl. rewrite H. destruct (since mark tr); reflexivity. Qed.

Lemma thread_events_keep (e : event) (tr : list event) :
  is_thread_event e = true -> thread_events (e :: tr) = e :: thread_events tr.
Proof. intros H. unfold thread_events. simpl. rewrite H. reflexivity. Qed.

Lemma thread_events_drop (e : event) (tr : list event) :
  is_thread_event e = false -> thread_events (e :: tr) = thread_events tr.
Proof. intros H. unfold thread_events. simpl. rewrite H. reflexivity. Qed.

Lemma thread_events_incl (e : event) (tr : list event) :
  In e (thread_events tr) -> In e tr.
Proof. unfold thread_events. intros H. apply filter_In in H. tauto. Qed.

Lemma slept_cons (e : event) (tr : list event) :
  slept (e :: tr) = slept [e] + slept tr.
Proof. unfold slept. destruct e; cbn [fold_right]; lia. Qed.

Lemma PWM_PERIOD_NS_pos : 0 < PWM_PERIOD_NS.
Proof. reflexivity. Qed.

Lemma budget_after_action (todo : list action) :
  budget (after_action todo) = sleep_total todo.
Proof. destruct todo; reflexivity. Qed.

Lemma steps_left_after_action (todo : list action) :
  (steps_left (after_action todo) <= List.length todo + 3)%nat.
Proof. destruct todo; simpl; lia. Qed.

Lemma cycle_tail_cycle_actions (d : Z) :
  0 <= d <= 100 -> cycle_tail (cycle_actions d).
Proof.
  intros H. split.
  - destruct (cycle_actions_cases d H) as [[_ E] | [[_ E] | [_ E]]];
      rewrite E; rewrite ?PWM_PERIOD_NS_value;
      repeat constructor; cbn [sleep_of]; lia.
  - split; [rewrite sleep_total_cycle by exact H; lia |].
    destruct (cycle_actions_cases d H) as [[_ E] | [[_ E] | [_ E]]];
      rewrite E; simpl; lia.
Qed.

Lemma cycle_tail_tl (a : action) (todo : list action) :
  cycle_tail (a :: todo) ->
  cycle_tail todo /\ 0 <= sleep_of a
  /\ sleep_total (a :: todo) = sleep_of a + sleep_total todo.
Proof.
  intros (Hall & Hsum & Hlen). inversion Hall as [| a' l' Ha Hl]; subst.
  change (sleep_total (a :: todo)) with (sleep_of a + sleep_total todo) in *.
  cbn [List.length] in Hlen.
  repeat split; try assumption; lia.
Qed.

(** The thread's part of the invariant looks only at the thread's control
    point and at the thread's events. *)
Lemma thread_inv_after_action p h c m tr (todo : list action) :
  cycle_tail todo -> ~ In EvLoopExit tr ->
  thread_inv (mk_system p h c (after_action todo) m tr).
Proof.
  intros Htail Hno. destruct todo; unfold thread_inv; cbn; auto.
Qed.

Lemma thread_inv_main_event p h c m p' h' c' m' t tr (e : event) :
  is_thread_event e = false ->
  thread_inv (mk_system p h c t m tr) ->
  thread_inv (mk_system p' h' c' t m' (e :: tr)).
Proof.
  intros He. unfold thread_inv. cbn [tpc trace].
  assert (Hno : ~ In EvLoopExit tr -> ~ In EvLoopExit (e :: tr)).
  { intros Hno [Heq | Hin]; [subst e; discriminate He | exact (Hno Hin)]. }
  rewrite (thread_events_drop e tr He).
  destruct t; intuition.
Qed.

Lemma budget_bound (s : system) :
  thread_inv s -> 0 <= budget (tpc s) <= PWM_PERIOD_NS.
Proof.
  pose proof PWM_PERIOD_NS_pos as Hpos.
  unfold thread_inv. destruct (tpc s) as [| | todo | |]; cbn [budget];
    intros H; try lia.
  destruct H as [(Hall & Hsum & _) _]. split; [| exact Hsum].
  clear Hsum. induction Hall as [| a l Ha Hl IH];
    [cbn; lia |].
  change (sleep_total (a :: l)) with (sleep_of a + sleep_total l). lia.
Qed.

Lemma inv_started (ln : Z) (g : gpio) : inv (started ln g).
Proof.
  unfold inv, thread_inv, main_inv, started. cbn.
  repeat split; try lia; tauto.
Qed.

(** The part of [main_inv] that a step of the generation thread has to
    re-establish: the thread appends [e] (or nothing) and moves from [t] to
    [t'] without spending more than it had budgeted. *)
Lemma main_inv_thread_event p h h' c t t' m tr (e : event) :
  is_thread_event e = true ->
  t <> Returned ->
  slept [e] + budget t' <= budget t ->
  main_inv (mk_system p h c t m tr) ->
  main_inv (mk_system p h' c t' m (e :: tr)).
Proof.
  intros He Ht Hspend. unfold main_inv. cbn [mpc pwm trace tpc].
  assert (Hstop : is_stop e = false) by (destruct e; try reflexivity; discriminate He).
  rewrite (since_skip is_stop e tr Hstop).
  destruct m.
  - intros [Hact Hnone]. rewrite Hnone. split; [exact Hact | reflexivity].
  - intros [Hact (newer & Hsince & Hsum)]. split; [exact Hact |].
    exists (e :: newer). rewrite Hsince. split; [reflexivity |].
    rewrite (slept_cons e newer). lia.
  - intros (_ & _ & Hret & _). contradiction.
  - intros (_ & _ & Hret & _). contradiction.
  - intros (_ & _ & Hret & _). contradiction.
  - intros (_ & _ & Hret & _). contradiction.
  - intros (_ & _ & Hret & _). contradiction.
Qed.

Lemma main_inv_thread_silent p h c t t' m tr :
  t <> Returned ->
  budget t' <= budget t ->
  main_inv (mk_system p h c t m tr) ->
  main_inv (mk_system p h c t' m tr).
Proof.
  intros Ht Hspend. unfold main_inv. cbn [mpc pwm trace tpc].
  destruct m; try (intros (_ & _ & Hret & _); contradiction).
  - tauto.
  - intros [Hact (newer & Hsince & Hsum)]. split; [exact Hact |].
    exists newer. split; [exact Hsince | lia].
Qed.

Lemma pwm_thread_step_inv (s : system) : inv s -> inv (pwm_thread_step s).
Proof.
  destruct s as [p h c t m tr].
  intros (Hduty & Hthread & Hmain).
  unfold pwm_thread_step. cbn [tpc pwm hw console mpc trace].
  destruct t as [| | [| [v | ns] todo] | |].
  - (* AtWhile *)
    destruct (active p) eqn:Hact.
    + split; [exact Hduty |]. split; [exact Hthread |].
      revert Hmain. unfold main_inv. cbn [mpc pwm tpc trace].
      destruct m; intros Hm;
        try (destruct Hm as (_ & _ & Hret & _); discriminate Hret).
      * exact Hm.
      * destruct Hm as [Hfalse _]. rewrite Hact in Hfalse. discriminate Hfalse.
    + split; [exact Hduty |]. split.
      * unfold thread_inv in *. cbn [tpc trace] in *.
        exists (thread_events tr). split; [reflexivity |].
        intros Hin. apply Hthread. exact (thread_events_incl _ _ Hin).
      * apply (main_inv_thread_event p h h c AtWhile);
          [reflexivity | discriminate | cbn; lia | exact Hmain].
  - (* AtRead *)
    split; [exact Hduty |]. split.
    + apply thread_inv_after_action;
        [apply cycle_tail_cycle_actions; exact Hduty | exact Hthread].
    + apply (main_inv_thread_silent p h c AtRead); [discriminate | | exact Hmain].
      rewrite budget_after_action, sleep_total_cycle by exact Hduty.
      cbn [budget]. lia.
  - (* InCycle [] *)
    split; [exact Hduty |]. split.
    + unfold thread_inv in *. cbn [tpc trace] in *. tauto.
    + apply (main_inv_thread_silent p h c (InCycle [])); [discriminate | | exact Hmain].
      cbn. lia.
  - (* a write *)
    destruct (gpiod_line_set_value h v) as [ret g] eqn:Hw.
    unfold thread_inv in Hthread. cbn [tpc trace] in Hthread.
    destruct Hthread as [Htail Hno].
    destruct (cycle_tail_tl _ _ Htail) as (Htail' & Hnn & Hsum).
    split; [exact Hduty |]. split.
    + apply thread_inv_after_action; [exact Htail' |].
      intros [Heq | Hin]; [discriminate Heq | exact (Hno Hin)].
    + apply (main_inv_thread_event p h g c (InCycle (SetValue v :: todo)));
        [reflexivity | discriminate | | exact Hmain].
      rewrite budget_after_action. cbn [budget]. rewrite Hsum. cbn. lia.
  - (* a sleep *)
    unfold thread_inv in Hthread. cbn [tpc trace] in Hthread.
    destruct Hthread as [Htail Hno].
    destruct (cycle_tail_tl _ _ Htail) as (Htail' & Hnn & Hsum).
    split; [exact Hduty |]. split.
    + apply thread_inv_after_action; [exact Htail' |].
      intros [Heq | Hin]; [discriminate Heq | exact (Hno Hin)].
    + apply (main_inv_thread_event p h h c (InCycle (NanoSleep ns :: todo)));
        [reflexivity | discriminate | | exact Hmain].
      rewrite budget_after_action. cbn [budget]. rewrite Hsum.
      cbn [slept fold_right sleep_of]. lia.
  - (* AtFinalWrite *)
    destruct (gpiod_line_set_value h 0) as [ret g] eqn:Hw.
    split; [exact Hduty |]. split.
    + unfold thread_inv in *. cbn [tpc trace] in *.
      destruct Hthread as (rest & Hev & Hno).
      exists ret, rest. rewrite thread_events_keep by reflexivity.
      rewrite Hev. split; [reflexivity | exact Hno].
    + apply (main_inv_thread_event p h g c AtFinalWrite);
        [reflexivity | discriminate | cbn; lia | exact Hmain].
  - (* Returned *)
    split; [exact Hduty | split; [exact Hthread | exact Hmain]].
Qed.

Lemma slept_main_event (e : event) :
  is_thread_event e = false -> slept [e] = 0.
Proof. destruct e; intros H; try reflexivity; discriminate H. Qed.

(** Once the join has returned, the control thread only appends events of
    its own. *)
Lemma main_inv_tail p h c c' t m m' tr (e : event) :
  joined m = true -> joined m' = true ->
  is_thread_event e = false -> is_stop e = false -> is_join e = false ->
  main_inv (mk_system p h c t m tr) ->
  main_inv (mk_system p h c' t m' (e :: tr)).
Proof.
  intros Hm Hm' He Hstop Hjoin Hinv.
  assert (Hold : active p = false
                 /\ (exists newer,
                       since is_stop tr = Some newer
                       /\ slept newer + budget t <= PWM_PERIOD_NS)
                 /\ t = Returned
                 /\ exists newer,
                      since is_join tr = Some newer /\ thread_events newer = []).
  { destruct m; try discriminate Hm; exact Hinv. }
  clear Hinv.
  destruct Hold as (Hact & (n1 & Hs1 & Hsum) & Hret & (n2 & Hj & Hev)).
  assert (Hnew : active p = false
                 /\ (exists newer,
                       since is_stop (e :: tr) = Some newer
                       /\ slept newer + budget t <= PWM_PERIOD_NS)
                 /\ t = Returned
                 /\ exists newer,
                      since is_join (e :: tr) = Some newer
                      /\ thread_events newer = []).
  { split; [exact Hact |]. split.
    - exists (e :: n1). rewrite (since_skip is_stop e tr Hstop), Hs1.
      split; [reflexivity |].
      rewrite slept_cons, (slept_main_event e He). lia.
    - split; [exact Hret |].
      exists (e :: n2). rewrite (since_skip is_join e tr Hjoin), Hj.
      split; [reflexivity |].
      rewrite (thread_events_drop e n2 He). exact Hev. }
  destruct m'; try discriminate Hm'; exact Hnew.
Qed.

Lemma main_step_inv (req : option Z) (s : system) : inv s -> inv (main_step req s).
Proof.
  destruct s as [p h c t m tr].
  intros (Hduty & Hthread & Hmain).
  unfold main_step. cbn [tpc pwm hw console mpc trace].
  destruct m.
  - (* in the main loop *)
    destruct Hmain as [Hact Hnone]. cbn [pwm trace] in Hact, Hnone.
    destruct req as [v |].
    + split; [exact (set_duty_cycle_range p v) |]. split.
      * apply (thread_inv_main_event p h c InMainLoop); [reflexivity | exact Hthread].
      * unfold main_inv. cbn [mpc pwm trace].
        rewrite set_duty_cycle_active.
        rewrite (since_skip is_stop (EvSetDuty v) tr eq_refl), Hnone.
        split; [exact Hact | reflexivity].
    + split; [exact Hduty |]. split.
      * apply (thread_inv_main_event p h c InMainLoop); [reflexivity | exact Hthread].
      * unfold main_inv. cbn [mpc pwm trace tpc active].
        split; [reflexivity |].
        exists []. split; [reflexivity |].
        pose proof (budget_bound _ Hthread) as Hb. cbn [tpc] in Hb.
        cbn [slept fold_right]. lia.
  - (* at the join *)
    destruct Hmain as [Hact (newer & Hsince & Hsum)].
    cbn [pwm trace tpc] in Hact, Hsince, Hsum.
    assert (Hsame : inv (mk_system p h c t AtJoin tr)).
    { split; [exact Hduty |]. split; [exact Hthread |].
      split; [exact Hact |]. exists newer. split; assumption. }
    destruct t; try exact Hsame.
    split; [exact Hduty |]. split.
    + apply (thread_inv_main_event p h c AtJoin); [reflexivity | exact Hthread].
    + unfold main_inv. cbn [mpc pwm trace tpc].
      split; [exact Hact |]. split.
      * exists (EvJoin :: newer).
        rewrite (since_skip is_stop EvJoin tr eq_refl), Hsince.
        split; [reflexivity |]. rewrite slept_cons. cbn [slept fold_right]. lia.
      * split; [reflexivity |]. exists []. split; reflexivity.
  - split; [exact Hduty |]. split.
    + apply (thread_inv_main_event p h c AtMutexDestroy); [reflexivity | exact Hthread].
    + apply (main_inv_tail p h c c t AtMutexDestroy); try reflexivity. exact Hmain.
  - split; [exact Hduty |]. split.
    + apply (thread_inv_main_event p h c AtReleaseButton); [reflexivity | exact Hthread].
    + apply (main_inv_tail p h c c t AtReleaseButton); try reflexivity. exact Hmain.
  - split; [exact Hduty |]. split.
    + apply (thread_inv_main_event p h c AtReleaseLed); [reflexivity | exact Hthread].
    + apply (main_inv_tail p h c c t AtReleaseLed); try reflexivity. exact Hmain.
  - split; [exact Hduty |]. split.
    + apply (thread_inv_main_event p h c AtCloseChip); [reflexivity | exact Hthread].
    + apply (main_inv_tail p h c _ t AtCloseChip); try reflexivity. exact Hmain.
  - split; [exact Hduty | split; [exact Hthread | exact Hmain]].
Qed.

Lemma step_inv (c : choice) (s : system) : inv s -> inv (step c s).
Proof.
  destruct c as [| req]; [apply pwm_thread_step_inv | apply main_step_inv].
Qed.

Lemma run_inv (sch : list choice) (s : system) : inv s -> inv (run sch s).
Proof.
  revert s. induction sch as [| c sch IH]; intros s Hs; [exact Hs |].
  apply (IH (step c s)). apply step_inv. exact Hs.
Qed.

Lemma run_app (sch1 sch2 : list choice) (s : system) :
  run (sch1 ++ sch2) s = run sch2 (run sch1 s).
Proof. unfold run. apply fold_left_app. Qed.

Lemma reachable_inv (ln : Z) (g : gpio) (sch : list choice) :
  inv (run sch (started ln g)).
Proof. apply run_inv, inv_started. Qed.

(** *** Termination once [active] is false *)

Lemma steps_left_zero (pc : thread_pc) : steps_left pc = O -> pc = Returned.
Proof. destruct pc; cbn; intros H; try reflexivity; lia. Qed.

Lemma thread_steps_left (s : system) :
  inv s -> active (pwm s) = false ->
  (steps_left (tpc (pwm_thread_step s)) <= Nat.pred (steps_left (tpc s)))%nat
  /\ active (pwm (pwm_thread_step s)) = false.
Proof.
  destruct s as [p h c t m tr]. intros (Hduty & Hthread & _) Hact.
  cbn [pwm tpc] in *. unfold pwm_thread_step. cbn [tpc pwm hw console mpc trace].
  destruct t as [| | [| [v | ns] todo] | |].
  - rewrite Hact. cbn. split; [lia | exact Hact].
  - cbn [tpc pwm]. split; [| exact Hact].
    destruct (cycle_tail_cycle_actions _ Hduty) as (_ & _ & Hlen).
    pose proof (steps_left_after_action (cycle_actions (duty_cycle p))).
    cbn [steps_left]. lia.
  - cbn. split; [lia | exact Hact].
  - destruct (gpiod_line_set_value h v) as [ret g]. cbn [tpc pwm].
    split; [| exact Hact].
    pose proof (steps_left_after_action todo). cbn [steps_left List.length]. lia.
  - cbn [tpc pwm]. split; [| exact Hact].
    pose proof (steps_left_after_action todo). cbn [steps_left List.length]. lia.
  - destruct (gpiod_line_set_value h 0) as [ret g]. cbn. split; [lia | exact Hact].
  - cbn. split; [lia | exact Hact].
Qed.

Lemma main_step_stopped (req : option Z) (s : system) :
  active (pwm s) = false ->
  tpc (main_step req s) = tpc s /\ active (pwm (main_step req s)) = false.
Proof.
  destruct s as [p h c t m tr]. cbn [pwm tpc]. intros Hact.
  unfold main_step. cbn [tpc pwm hw console mpc trace].
  destruct m; try (split; [reflexivity | exact Hact]).
  - destruct req; cbn; split; try reflexivity. exact Hact.
  - destruct t; cbn; split; try reflexivity; exact Hact.
Qed.

Lemma run_steps_left (sch : list choice) (s : system) :
  inv s -> active (pwm s) = false ->
  (steps_left (tpc (run sch s)) <= steps_left (tpc s) - count_thread_steps sch)%nat.
Proof.
  revert s. induction sch as [| c sch IH]; intros s Hinv Hact.
  - cbn. lia.
  - change (run (c :: sch) s) with (run sch (step c s)).
    pose proof (step_inv c s Hinv) as Hinv'.
    destruct c as [| req].
    + destruct (thread_steps_left s Hinv Hact) as [Hdec Hact'].
      specialize (IH (step RunThread s) Hinv' Hact').
      cbn [step] in IH |- *.
      change (count_thread_steps (RunThread :: sch))
        with (S (count_thread_steps sch)).
      lia.
    + destruct (main_step_stopped req s Hact) as [Hpc Hact'].
      specialize (IH (step (RunMain req) s) Hinv' Hact').
      cbn [step] in IH |- *. rewrite Hpc in IH.
      change (count_thread_steps (RunMain req :: sch))
        with (count_thread_steps sch).
      exact IH.
Qed.

Lemma steps_left_bound (s : system) : inv s -> (steps_left (tpc s) <= 8)%nat.
Proof.
  intros (_ & Hthread & _). unfold thread_inv in Hthread.
  destruct (tpc s); cbn [steps_left]; try lia.
  destruct Hthread as [(_ & _ & Hlen) _]. lia.
Qed.

(** *** Failed writes *)

Lemma finish_cycle (todo : list action) (s : system) :
  tpc s = after_action todo ->
  let s' := run (repeat RunThread (List.length todo)) s in
  tpc s' = AtWhile /\ pwm s' = pwm s /\ console s' = console s.
Proof.
  revert s. induction todo as [| a todo IH]; intros s Hpc.
  - cbn. repeat split. exact Hpc.
  - cbn [List.length repeat].
    change (run (RunThread :: repeat RunThread (List.length todo)) s)
      with (run (repeat RunThread (List.length todo)) (pwm_thread_step s)).
    assert (Hstep : tpc (pwm_thread_step s) = after_action todo
                    /\ pwm (pwm_thread_step s) = pwm s
                    /\ console (pwm_thread_step s) = console s).
    { unfold pwm_thread_step. rewrite Hpc. cbn [after_action].
      destruct a as [v | ns]; [destruct (gpiod_line_set_value (hw s) v) |];
        repeat split. }
    destruct Hstep as (Hpc' & Hpwm & Hcon).
    destruct (IH _ Hpc') as (H1 & H2 & H3).
    cbn zeta. rewrite H1, H2, H3, Hpwm, Hcon. repeat split.
Qed.

Lemma step_at_while (s : system) :
  tpc s = AtWhile -> active (pwm s) = true ->
  pwm_thread_step s
  = mk_system (pwm s) (hw s) (console s) AtRead (mpc s) (trace s).
Proof. intros Hpc Hact. unfold pwm_thread_step. rewrite Hpc, Hact. reflexivity. Qed.

Lemma step_at_read (s : system) :
  tpc s = AtRead ->
  pwm_thread_step s
  = mk_system (pwm s) (hw s) (console s)
      (after_action (cycle_actions (duty_cycle (pwm s)))) (mpc s) (trace s).
Proof. intros Hpc. unfold pwm_thread_step. rewrite Hpc. reflexivity. Qed.

(** C9, counterexample.  With half brightness requested and a line whose
    next write fails, the thread's write of 1 returns -1 and nothing is
    printed: the failure is not reported. *)
Lemma C9_failed_write_not_reported :
  tpc before_failed_write
  = InCycle [SetValue 1; NanoSleep 500000; SetValue 0; NanoSleep 500000]
  /\ fst (gpiod_line_set_value (hw before_failed_write) 1) = -1
  /\ trace (step RunThread before_failed_write)
     = EvWrite 1 (-1) :: trace before_failed_write
  /\ ~ failure_reported before_failed_write (step RunThread before_failed_write).
Proof.
  split; [reflexivity |]. split; [reflexivity |]. split; [reflexivity |].
  unfold failure_reported. intros H. apply H. reflexivity.
Qed.

(** C9, amended.  When the thread is about to write to the line in a cycle
    and the channel is active, then whether or not that write and the later
    ones fail: the return value goes nowhere but the trace, nothing is
    printed, the channel structure is unchanged (so it stays active), the
    thread carries on with the rest of the cycle, and after the rest of the
    cycle and the loop test it starts a fresh cycle computed from the duty
    cycle. *)
Theorem C9_write_failure_absorbed (s : system) (v : Z) (todo : list action) :
  tpc s = InCycle (SetValue v :: todo) ->
  active (pwm s) = true ->
  let s1 := step RunThread s in
  let s2 := run (repeat RunThread (List.length todo + 2)) s1 in
  trace s1 = EvWrite v (fst (gpiod_line_set_value (hw s) v)) :: trace s
  /\ console s1 = console s
  /\ pwm s1 = pwm s
  /\ tpc s1 = after_action todo
  /\ console s2 = console s
  /\ pwm s2 = pwm s
  /\ tpc s2 = after_action (cycle_actions (duty_cycle (pwm s))).
Proof.
  intros Hpc Hact s1 s2.
  assert (H1 : trace s1 = EvWrite v (fst (gpiod_line_set_value (hw s) v)) :: trace s
               /\ console s1 = console s /\ pwm s1 = pwm s
               /\ tpc s1 = after_action todo).
  { unfold s1, step, pwm_thread_step. rewrite Hpc.
    destruct (gpiod_line_set_value (hw s) v). repeat split. }
  destruct H1 as (Htr & Hcon & Hpwm & Hpc1).
  repeat (split; [assumption |]).
  unfold s2. rewrite repeat_app, run_app.
  destruct (finish_cycle todo s1 Hpc1) as (Hw & Hp & Hc).
  cbn zeta in Hw, Hp, Hc.
  set (s3 := run (repeat RunThread (List.length todo)) s1) in *.
  change (run (repeat RunThread 2) s3)
    with (pwm_thread_step (pwm_thread_step s3)).
  rewrite (step_at_while s3 Hw) by (rewrite Hp, Hpwm; exact Hact).
  rewrite step_at_read by reflexivity.
  cbn [tpc pwm console]. rewrite Hp, Hpwm, Hc, Hcon. repeat split.
Qed.

Lemma C9_write_failure_absorbed_witness :
  let s1 := step RunThread before_failed_write in
  console s1 = console before_failed_write
  /\ active (pwm s1) = true
  /\ tpc (run (repeat RunThread 5) s1)
     = InCycle [SetValue 1; NanoSleep 500000; SetValue 0; NanoSleep 500000].
Proof.
  destruct (C9_write_failure_absorbed before_failed_write 1
              [NanoSleep 500000; SetValue 0; NanoSleep 500000]
              eq_refl eq_refl)
    as (_ & Hcon & Hpwm & _ & _ & _ & Hnext).
  split; [exact Hcon |]. split; [rewrite Hpwm; reflexivity | exact Hnext].
Defined.

End GeneratorFacts.

(** * Further properties of the program *)

(** ** The timing *)

(** For a duty cycle in [0,100] the on-time is exactly that percentage of
    the period, so the on-time grows strictly with the duty cycle and the
    off-time shrinks strictly. *)
Theorem on_time_proportional (d1 d2 : Z) :
  0 <= d1 <= 100 -> 0 <= d2 <= 100 ->
  100 * on_time_ns d1 = d1 * PWM_PERIOD_NS
  /\ 0 <= on_time_ns d1 <= PWM_PERIOD_NS
  /\ (d1 < d2 -> on_time_ns d1 < on_time_ns d2
                 /\ off_time_ns d2 < off_time_ns d1).
Proof.
  intros H1 H2.
  rewrite !on_time_ns_exact, !off_time_ns_exact by assumption.
  rewrite PWM_PERIOD_NS_value. lia.
Qed.

Lemma on_time_proportional_witness :
  100 * on_time_ns 25 = 25 * PWM_PERIOD_NS
  /\ on_time_ns 25 < on_time_ns 26.
Proof.
  destruct (on_time_proportional 25 26 ltac:(lia) ltac:(lia)) as (Hp & _ & Hm).
  split; [exact Hp | apply Hm; lia].
Defined.

Section TimespecFacts.
Import Timespec.

(** The request [nano_sleep] builds always stands for the number of
    nanoseconds it was given, and it is a request [nanosleep] accepts
    exactly when that number is not negative. *)
Theorem nano_sleep_req_valid (ns : Z) :
  timespec_ns (nano_sleep_req ns) = ns
  /\ (valid_timespec (nano_sleep_req ns) <-> 0 <= ns).
Proof.
  unfold timespec_ns, valid_timespec, nano_sleep_req. cbn [tv_sec tv_nsec].
  pose proof (Z.quot_rem' ns 1000000000) as Hqr.
  split; [lia |].
  split.
  - intros [Hs Hn]. lia.
  - intros Hns.
    pose proof (Z.rem_bound_pos ns 1000000000 Hns ltac:(lia)).
    pose proof (Z.quot_pos ns 1000000000 Hns ltac:(lia)).
    lia.
Qed.

(** Every sleep of a cycle with a duty cycle in [0,100] is handed to
    [nanosleep] as zero seconds and the same number of nanoseconds. *)
Theorem cycle_sleeps_subsecond (d ns : Z) :
  0 <= d <= 100 -> In ns (sleeps_of (cycle_actions d)) ->
  nano_sleep_req ns = {| tv_sec := 0; tv_nsec := ns |}
  /\ valid_timespec (nano_sleep_req ns).
Proof.
  intros Hd Hin.
  assert (Hns : 0 < ns <= 1000000).
  { destruct (cycle_actions_cases d Hd) as [[Hd' E] | [[Hd' E] | [Hd' E]]];
      rewrite E in Hin; rewrite ?PWM_PERIOD_NS_value in Hin;
      unfold sleeps_of in Hin; cbn [flat_map app In] in Hin;
      intuition lia. }
  unfold valid_timespec, nano_sleep_req.
  rewrite Z.quot_small, Z.rem_small by lia. cbn [tv_sec tv_nsec].
  split; [reflexivity | lia].
Qed.

Lemma cycle_sleeps_subsecond_witness :
  nano_sleep_req 250000 = {| tv_sec := 0; tv_nsec := 250000 |}.
Proof.
  apply (cycle_sleeps_subsecond 25 250000); [lia | vm_compute; auto].
Defined.

End TimespecFacts.

(** ** The control loop *)

Section ControlLoopFacts.
Import Animation ControlLoop.

Lemma breathing_animation_ranges (st : breathing_statics) (pwm : pwm_control_t) :
  0 <= brightness st <= 100 ->
  direction st = 1 \/ direction st = -1 ->
  let r := breathing_animation st pwm in
  0 <= brightness (statics_after r) <= 100
  /\ (direction (statics_after r) = 1 \/ direction (statics_after r) = -1)
  /\ duty_cycle (channel_after r) = brightness (statics_after r).
Proof.
  intros Hb Hd.
  assert (Hnext : wrap_int (brightness st + wrap_int (direction st * 2))
                  = brightness st + 2 * direction st).
  { destruct Hd as [-> | ->].
    - replace (wrap_int (1 * 2)) with 2 by reflexivity.
      rewrite wrap_int_small by (unfold INT_MIN, INT_MAX; lia). lia.
    - replace (wrap_int (-1 * 2)) with (-2) by reflexivity.
      rewrite wrap_int_small by (unfold INT_MIN, INT_MAX; lia). lia. }
  unfold breathing_animation, statics_after, channel_after.
  rewrite Hnext. cbn zeta. cbn [fst snd].
  destruct (100 <=? brightness st + 2 * direction st) eqn:E1;
    [apply Z.leb_le in E1 | apply Z.leb_gt in E1].
  - cbn [brightness direction]. rewrite set_duty_cycle_in_range by lia.
    split; [lia |]. split; [right; reflexivity | reflexivity].
  - destruct (brightness st + 2 * direction st <=? 0) eqn:E2;
      [apply Z.leb_le in E2 | apply Z.leb_gt in E2];
      cbn [brightness direction]; rewrite set_duty_cycle_in_range by lia.
    + split; [lia |]. split; [left; reflexivity | reflexivity].
    + split; [lia |]. split; [exact Hd | reflexivity].
Qed.

Lemma strobe_animation_ranges (st : strobe_statics) (pwm : pwm_control_t) :
  state st = 0 \/ state st = 1 ->
  0 <= counter st <= 4 ->
  0 <= duty_cycle pwm <= 100 ->
  let r := strobe_animation st pwm in
  (state (statics_after r) = 0 \/ state (statics_after r) = 1)
  /\ 0 <= counter (statics_after r) <= 4
  /\ 0 <= duty_cycle (channel_after r) <= 100.
Proof.
  intros Hs Hc Hd.
  unfold strobe_animation, statics_after, channel_after.
  rewrite wrap_int_small by (unfold INT_MIN, INT_MAX; lia).
  cbn zeta.
  destruct (5 <=? counter st + 1) eqn:E;
    [apply Z.leb_le in E | apply Z.leb_gt in E]; cbn [fst snd state counter].
  - split; [destruct Hs as [-> | ->]; cbn; auto |].
    split; [lia | apply set_duty_cycle_range].
  - split; [exact Hs |]. split; [lia | exact Hd].
Qed.

(** The animations leave the loop's own variables alone. *)
Lemma run_animation_keeps (sine : Z) (st : loop_state) :
  current_mode (run_animation sine st) = current_mode st
  /\ last_button_state (run_animation sine st) = last_button_state st
  /\ animation_counter (run_animation sine st) = animation_counter st
  /\ printed (run_animation sine st) = printed st.
Proof.
  unfold run_animation.
  destruct (current_mode st =? MODE_MANUAL); [repeat split |].
  destruct (current_mode st =? MODE_BREATHING).
  { destruct (breathing_animation (breathing st) (chan st)) as [[b p] l].
    repeat split. }
  destruct (current_mode st =? MODE_SINE_WAVE); [repeat split |].
  destruct (current_mode st =? MODE_STROBE); [| repeat split].
  destruct (strobe_animation (strobe st) (chan st)) as [[s p] l].
  repeat split.
Qed.

Lemma run_animation_ranges (sine : Z) (st : loop_state) :
  in_ranges st -> in_ranges (run_animation sine st).
Proof.
  intros (Hm & Hc & Hb & Hd & Hs & Hsc & Hduty).
  unfold run_animation.
  destruct (current_mode st =? MODE_MANUAL).
  { unfold in_ranges. cbn [current_mode animation_counter breathing strobe chan].
    repeat (split; [assumption |]). apply set_duty_cycle_range. }
  destruct (current_mode st =? MODE_BREATHING).
  { pose proof (breathing_animation_ranges (breathing st) (chan st) Hb Hd) as Hr.
    cbn zeta in Hr. unfold statics_after, channel_after in Hr.
    destruct (breathing_animation (breathing st) (chan st)) as [[b p] l].
    cbn [fst snd] in Hr. destruct Hr as (Hb' & Hd' & Hp).
    unfold in_ranges. cbn [current_mode animation_counter breathing strobe chan].
    repeat (split; [assumption |]). lia. }
  destruct (current_mode st =? MODE_SINE_WAVE).
  { unfold in_ranges. cbn [current_mode animation_counter breathing strobe chan].
    repeat (split; [assumption |]). apply set_duty_cycle_range. }
  destruct (current_mode st =? MODE_STROBE).
  { pose proof (strobe_animation_ranges (strobe st) (chan st) Hs Hsc Hduty) as Hr.
    cbn zeta in Hr. unfold statics_after, channel_after in Hr.
    destruct (strobe_animation (strobe st) (chan st)) as [[s p] l].
    cbn [fst snd] in Hr. destruct Hr as (Hs' & Hc' & Hp).
    unfold in_ranges. cbn [current_mode animation_counter breathing strobe chan].
    repeat (split; [assumption |]). assumption. }
  repeat (split; [assumption |]). assumption.
Qed.

Lemma next_mode (m : Z) :
  0 <= m <= 3 -> Z.rem (wrap_int (m + 1)) 4 = (m + 1) mod 4.
Proof.
  intros H. rewrite wrap_int_small by (unfold INT_MIN, INT_MAX; lia).
  apply Z.rem_mod_nonneg; lia.
Qed.

Lemma loop_iteration_ranges (button sine : Z) (st : loop_state) :
  in_ranges st -> in_ranges (loop_iteration button sine st).
Proof.
  intros Hin. pose proof Hin as (Hm & Hc & Hb & Hd & Hs & Hsc & Hduty).
  unfold loop_iteration. cbn zeta.
  rewrite (wrap_int_small (animation_counter st + 1))
    by (unfold INT_MIN, INT_MAX; lia).
  assert (Hmode : 0 <= (if (button =? 0) && (last_button_state st =? 1)
                        then Z.rem (wrap_int (current_mode st + 1)) 4
                        else current_mode st) <= 3).
  { destruct ((button =? 0) && (last_button_state st =? 1)); [| exact Hm].
    rewrite next_mode by exact Hm. lia_mod. }
  destruct (10 <=? animation_counter st + 1) eqn:E;
    [apply Z.leb_le in E | apply Z.leb_gt in E].
  - apply run_animation_ranges. unfold in_ranges.
    cbn [current_mode animation_counter breathing strobe chan].
    split; [exact Hmode |]. split; [lia |].
    repeat (split; [assumption |]). assumption.
  - unfold in_ranges.
    cbn [current_mode animation_counter breathing strobe chan].
    split; [exact Hmode |]. split; [lia |].
    repeat (split; [assumption |]). assumption.
Qed.

Lemma control_loop_ranges (inputs : list (Z * Z)) (st : loop_state) :
  in_ranges st -> in_ranges (control_loop inputs st).
Proof.
  revert st. induction inputs as [| i inputs IH]; intros st Hst; [exact Hst |].
  apply (IH _ (loop_iteration_ranges (fst i) (snd i) st Hst)).
Qed.

(** Whatever the button reads and whatever brightness the sine animation
    computes, after any number of iterations of the control loop the mode is
    one of the four enumerators, the counters are below their limits, the
    breathing brightness and the duty cycle are in [0,100], and both
    directions and states are the values the code assigns: no [int] of the
    loop ever overflows. *)
Theorem control_loop_in_ranges (inputs : list (Z * Z)) :
  in_ranges (control_loop inputs loop_entry).
Proof.
  apply control_loop_ranges. unfold in_ranges, loop_entry.
  cbn [current_mode animation_counter breathing strobe chan].
  unfold breathing_initial, strobe_initial, pwm_init_fields, MODE_MANUAL.
  cbn [brightness direction state counter duty_cycle].
  split; [lia |]. split; [lia |]. split; [lia |].
  split; [left; reflexivity |]. split; [left; reflexivity |].
  split; lia.
Qed.

(** What one iteration does to the variables of the button logic. *)
Lemma loop_iteration_button (button sine : Z) (st : loop_state) :
  let pressed := (button =? 0) && (last_button_state st =? 1) in
  let st' := loop_iteration button sine st in
  current_mode st'
  = (if pressed then Z.rem (wrap_int (current_mode st + 1)) 4
     else current_mode st)
  /\ last_button_state st' = button
  /\ printed st'
     = (if pressed
        then ("Mode: " ++ nth (Z.to_nat (current_mode st')) mode_names ""
                ++ nl)%string :: printed st
        else printed st).
Proof.
  cbn zeta. unfold loop_iteration. cbn zeta.
  destruct (10 <=? wrap_int (animation_counter st + 1)).
  - match goal with
    | |- context [run_animation sine ?x] =>
        destruct (run_animation_keeps sine x) as (Hm & Hl & _ & Hp)
    end.
    rewrite Hm, Hl, Hp. cbn [current_mode last_button_state printed].
    repeat split.
  - cbn [current_mode last_button_state printed]. repeat split.
Qed.

Lemma control_loop_cons (i : Z * Z) (inputs : list (Z * Z)) (st : loop_state) :
  control_loop (i :: inputs) st
  = control_loop inputs (loop_iteration (fst i) (snd i) st).
Proof. reflexivity. Qed.

(** Readings that cannot contain a falling edge leave the mode and the
    output alone. *)
Lemma steady_no_edge (b : Z) (sines : list Z) (st : loop_state) :
  b <> 0 \/ last_button_state st <> 1 ->
  let st' := control_loop (steady b sines) st in
  current_mode st' = current_mode st /\ printed st' = printed st.
Proof.
  revert st. induction sines as [| s sines IH]; intros st Hno.
  - cbn. split; reflexivity.
  - cbn zeta. unfold steady. cbn [map]. rewrite control_loop_cons. cbn [fst snd].
    destruct (loop_iteration_button b s st) as (Hm & Hl & Hp). cbn zeta in *.
    assert (Hpressed : (b =? 0) && (last_button_state st =? 1) = false).
    { destruct Hno as [Hb | Hl'].
      - apply Z.eqb_neq in Hb. rewrite Hb. reflexivity.
      - apply Z.eqb_neq in Hl'. rewrite Hl'. apply andb_false_r. }
    rewrite Hpressed in Hm, Hp.
    assert (Hno' : b <> 0 \/ last_button_state (loop_iteration b s st) <> 1).
    { rewrite Hl. destruct (Z.eq_dec b 0); [right; lia | left; assumption]. }
    destruct (IH _ Hno') as (Hm' & Hp'). cbn zeta in *.
    fold (steady b sines). rewrite Hm', Hp', Hm, Hp. split; reflexivity.
Qed.

(** Each press and release of the button advances the mode by one, modulo
    four: four presses bring the mode back. *)
Theorem mode_cycles (sines : list (Z * Z)) (st : loop_state) :
  last_button_state st = 1 ->
  0 <= current_mode st <= 3 ->
  let st' := control_loop (press_release sines) st in
  current_mode st' = (current_mode st + Z.of_nat (List.length sines)) mod 4
  /\ last_button_state st' = 1.
Proof.
  revert st. induction sines as [| s sines IH]; intros st Hlast Hmode.
  - cbn. rewrite Z.add_0_r, Z.mod_small by lia. split; [reflexivity | exact Hlast].
  - cbn zeta. unfold press_release. cbn [flat_map app].
    rewrite !control_loop_cons. cbn [fst snd].
    destruct (loop_iteration_button 0 (fst s) st) as (Hm1 & Hl1 & _).
    cbn zeta in Hm1, Hl1. rewrite Hlast in Hm1. cbn [Z.eqb Pos.eqb andb] in Hm1.
    rewrite next_mode in Hm1 by exact Hmode.
    set (st1 := loop_iteration 0 (fst s) st) in *.
    destruct (loop_iteration_button 1 (snd s) st1) as (Hm2 & Hl2 & _).
    cbn zeta in Hm2, Hl2. cbn [Z.eqb Pos.eqb andb] in Hm2.
    set (st2 := loop_iteration 1 (snd s) st1) in *.
    assert (Hr2 : 0 <= current_mode st2 <= 3) by (rewrite Hm2, Hm1; lia_mod).
    destruct (IH st2 Hl2 Hr2) as (Hm3 & Hl3). cbn zeta in Hm3, Hl3.
    fold (press_release sines). split; [| exact Hl3].
    rewrite Hm3, Hm2, Hm1. cbn [List.length]. rewrite Nat2Z.inj_succ. lia_mod.
Qed.

Lemma mode_cycles_witness :
  current_mode
    (control_loop (press_release [(7, 7); (7, 7); (7, 7); (7, 7)]) loop_entry)
  = MODE_MANUAL.
Proof.
  destruct (mode_cycles [(7, 7); (7, 7); (7, 7); (7, 7)] loop_entry
              eq_refl
              ltac:(unfold loop_entry, MODE_MANUAL; cbn [current_mode]; lia)) as [Hm _].
  exact Hm.
Defined.

(** Holding the button down, for however many iterations, changes the mode
    once and prints one line. *)
Theorem button_held_once (s0 : Z) (sines : list Z) (st : loop_state) :
  last_button_state st = 1 ->
  0 <= current_mode st <= 3 ->
  let st' := control_loop ((0, s0) :: steady 0 sines) st in
  current_mode st' = (current_mode st + 1) mod 4
  /\ List.length (printed st') = S (List.length (printed st)).
Proof.
  intros Hlast Hmode. cbn zeta. rewrite control_loop_cons. cbn [fst snd].
  destruct (loop_iteration_button 0 s0 st) as (Hm1 & Hl1 & Hp1).
  cbn zeta in Hm1, Hl1, Hp1. rewrite Hlast in Hm1, Hp1.
  cbn [Z.eqb Pos.eqb andb] in Hm1, Hp1. rewrite next_mode in Hm1 by exact Hmode.
  destruct (steady_no_edge 0 sines (loop_iteration 0 s0 st)) as (Hm2 & Hp2);
    [right; lia |].
  cbn zeta in Hm2, Hp2. rewrite Hm2, Hp2, Hm1, Hp1. split; reflexivity.
Qed.

Lemma button_held_once_witness :
  current_mode (control_loop ((0, 7) :: steady 0 [7; 7; 7]) loop_entry)
  = MODE_BREATHING.
Proof.
  destruct (button_held_once 7 [7; 7; 7] loop_entry eq_refl
              ltac:(unfold loop_entry, MODE_MANUAL; cbn [current_mode]; lia))
    as [Hm _].
  exact Hm.
Defined.

(** A press is seen only when the reading before it was exactly 1.  After
    any other reading, in particular after a failed read (-1), a reading of
    0 changes neither the mode nor the output: that press is lost. *)
Theorem press_after_failed_read_lost (r s1 s2 : Z) (st : loop_state) :
  r <> 1 ->
  let st1 := loop_iteration r s1 st in
  let st2 := loop_iteration 0 s2 st1 in
  current_mode st2 = current_mode st1
  /\ printed st2 = printed st1
  /\ last_button_state st2 = 0.
Proof.
  intros Hr. cbn zeta.
  destruct (loop_iteration_button r s1 st) as (_ & Hl1 & _). cbn zeta in Hl1.
  destruct (loop_iteration_button 0 s2 (loop_iteration r s1 st))
    as (Hm2 & Hl2 & Hp2).
  cbn zeta in Hm2, Hl2, Hp2. rewrite Hl1 in Hm2, Hp2.
  apply Z.eqb_neq in Hr. rewrite Hr in Hm2, Hp2. cbn [Z.eqb Pos.eqb andb] in Hm2, Hp2.
  split; [exact Hm2 |]. split; [exact Hp2 | exact Hl2].
Qed.

Lemma press_after_failed_read_lost_witness :
  current_mode (loop_iteration 0 7 (loop_iteration (-1) 7 loop_entry))
  = MODE_MANUAL.
Proof.
  destruct (press_after_failed_read_lost (-1) 7 7 loop_entry ltac:(lia))
    as [Hm _].
  rewrite Hm. reflexivity.
Defined.

(** An iteration in which the button reads 1. *)
Lemma idle_iteration (s : Z) (st : loop_state) :
  0 <= animation_counter st <= 9 ->
  loop_iteration 1 s st
  = if 10 <=? animation_counter st + 1
    then run_animation s
           (mk_loop (current_mode st) 1 0 (breathing st) (strobe st) (chan st)
              (printed st))
    else mk_loop (current_mode st) 1 (animation_counter st + 1)
           (breathing st) (strobe st) (chan st) (printed st).
Proof.
  intros Hc. unfold loop_iteration. cbn zeta.
  rewrite wrap_int_small by (unfold INT_MIN, INT_MAX; lia). reflexivity.
Qed.

Lemma manual_run (sines : list Z) (st : loop_state) :
  current_mode st = MODE_MANUAL ->
  0 <= animation_counter st <= 9 ->
  let st' := control_loop (steady 1 sines) st in
  let total := animation_counter st + Z.of_nat (List.length sines) in
  current_mode st' = MODE_MANUAL
  /\ animation_counter st' = total mod 10
  /\ duty_cycle (chan st')
     = (if total <? 10 then duty_cycle (chan st) else manual_brightness)
  /\ printed st' = printed st.
Proof.
  revert st. induction sines as [| s sines IH]; intros st Hmode Hc.
  - cbn -[Z.modulo]. rewrite Z.add_0_r, Z.mod_small by lia.
    replace (animation_counter st <? 10) with true
      by (symmetry; apply Z.ltb_lt; lia).
    repeat split. exact Hmode.
  - cbn zeta. unfold steady. cbn [map]. rewrite control_loop_cons. cbn [fst snd].
    fold (steady 1 sines). rewrite (idle_iteration s st Hc).
    cbn [List.length]. rewrite Nat2Z.inj_succ.
    destruct (10 <=? animation_counter st + 1) eqn:E;
      [apply Z.leb_le in E | apply Z.leb_gt in E].
    + unfold run_animation. cbn [current_mode]. rewrite Hmode.
      cbn [Z.eqb MODE_MANUAL].
      cbn [current_mode last_button_state animation_counter breathing strobe chan printed].
      match goal with
      | |- context [control_loop _ ?x] =>
          destruct (IH x eq_refl ltac:(cbn; lia)) as (H1 & H2 & H3 & H4)
      end.
      cbn zeta in H1, H2, H3, H4.
      cbn [animation_counter chan printed] in H2, H3, H4.
      rewrite H1, H2, H3, H4.
      rewrite set_duty_cycle_in_range by (unfold manual_brightness; lia).
      replace (animation_counter st + Z.succ (Z.of_nat (List.length sines)) <? 10)
        with false by (symmetry; apply Z.ltb_ge; lia).
      split; [reflexivity |]. split; [lia_mod |].
      split; [destruct (0 + Z.of_nat (List.length sines) <? 10); reflexivity |].
      reflexivity.
    + match goal with
      | |- context [control_loop _ ?x] =>
          destruct (IH x Hmode ltac:(cbn; lia)) as (H1 & H2 & H3 & H4)
      end.
      cbn zeta in H1, H2, H3, H4.
      cbn [animation_counter chan printed] in H2, H3, H4.
      rewrite H1, H2, H3, H4.
      replace (animation_counter st + 1 + Z.of_nat (List.length sines))
        with (animation_counter st + Z.succ (Z.of_nat (List.length sines))) by lia.
      repeat split.
Qed.

(** Until the button is first pressed the program is in manual mode: the
    duty cycle is the initial 0 during the first nine iterations and 50 from
    the tenth on, whatever the number of iterations, and nothing is
    printed. *)
Theorem manual_until_pressed (sines : list Z) :
  let st := control_loop (steady 1 sines) loop_entry in
  current_mode st = MODE_MANUAL
  /\ duty_cycle (chan st)
     = (if Z.of_nat (List.length sines) <? 10 then 0 else 50)
  /\ printed st = [].
Proof.
  destruct (manual_run sines loop_entry eq_refl ltac:(cbn; lia))
    as (Hm & _ & Hd & Hp).
  cbn zeta in *. split; [exact Hm |]. split; [exact Hd | exact Hp].
Qed.

Lemma breathing_run (sines : list Z) (st : loop_state) (K : nat) :
  current_mode st = MODE_BREATHING ->
  0 <= animation_counter st <= 9 ->
  brightness (breathing st) = triangle K ->
  direction (breathing st) = leg K ->
  duty_cycle (chan st) = triangle K ->
  let st' := control_loop (steady 1 sines) st in
  let K' :=
    Z.to_nat (Z.of_nat K
              + (animation_counter st + Z.of_nat (List.length sines)) / 10) in
  current_mode st' = MODE_BREATHING
  /\ brightness (breathing st') = triangle K'
  /\ direction (breathing st') = leg K'
  /\ duty_cycle (chan st') = triangle K'
  /\ printed st' = printed st.
Proof.
  revert st K. induction sines as [| s sines IH]; intros st K Hmode Hc Hb Hd Hduty.
  - cbn zeta. cbn [List.length steady map control_loop fold_left].
    replace (Z.of_nat K + (animation_counter st + Z.of_nat 0) / 10)
      with (Z.of_nat K) by lia_mod.
    rewrite Nat2Z.id. repeat split; assumption.
  - cbn zeta. unfold steady. cbn [map]. rewrite control_loop_cons. cbn [fst snd].
    fold (steady 1 sines). rewrite (idle_iteration s st Hc).
    cbn [List.length]. rewrite Nat2Z.inj_succ.
    destruct (10 <=? animation_counter st + 1) eqn:E;
      [apply Z.leb_le in E | apply Z.leb_gt in E].
    + unfold run_animation. cbn [current_mode]. rewrite Hmode.
      cbn [Z.eqb Pos.eqb MODE_BREATHING MODE_MANUAL].
      cbn [breathing chan].
      pose proof (breathing_animation_step K (breathing st) (chan st) Hb Hd)
        as Hstep.
      cbn zeta in Hstep. unfold statics_after, channel_after, calls_of in Hstep.
      destruct (breathing_animation (breathing st) (chan st)) as [[b p] l].
      cbn [fst snd] in Hstep. destruct Hstep as (Hb' & Hd' & Hp' & _).
      cbn [current_mode last_button_state animation_counter breathing strobe chan printed].
      match goal with
      | |- context [control_loop _ ?x] =>
          destruct (IH x (S K) eq_refl ltac:(cbn; lia) Hb' Hd' Hp')
            as (H1 & H2 & H3 & H4 & H5)
      end.
      cbn zeta in H1, H2, H3, H4, H5.
      cbn [animation_counter printed] in H2, H3, H4, H5.
      replace (Z.of_nat K
               + (animation_counter st + Z.succ (Z.of_nat (List.length sines))) / 10)
        with (Z.of_nat (S K) + (0 + Z.of_nat (List.length sines)) / 10)
        by (rewrite Nat2Z.inj_succ; lia_mod).
      repeat split; assumption.
    + match goal with
      | |- context [control_loop _ ?x] =>
          destruct (IH x K Hmode ltac:(cbn; lia) Hb Hd Hduty)
            as (H1 & H2 & H3 & H4 & H5)
      end.
      cbn zeta in H1, H2, H3, H4, H5.
      cbn [animation_counter printed] in H2, H3, H4, H5.
      replace (animation_counter st + Z.succ (Z.of_nat (List.length sines)))
        with (animation_counter st + 1 + Z.of_nat (List.length sines)) by lia.
      repeat split; assumption.
Qed.

(** After one press in the first iteration the program breathes: with the
    button released from then on, the duty cycle after [n] iterations of
    the loop is the value of the triangle wave at [n / 10], because the
    animation is stepped at every tenth iteration. *)
Theorem breathing_through_loop (s0 : Z) (sines : list Z) :
  let st := control_loop ((0, s0) :: steady 1 sines) loop_entry in
  let n := Z.succ (Z.of_nat (List.length sines)) in
  current_mode st = MODE_BREATHING
  /\ duty_cycle (chan st) = triangle (Z.to_nat (n / 10))
  /\ printed st = [("Mode: Breathing" ++ nl)%string].
Proof.
  cbn zeta. rewrite control_loop_cons. cbn [fst snd].
  assert (Hfirst : loop_iteration 0 s0 loop_entry
                   = mk_loop MODE_BREATHING 0 1 breathing_initial strobe_initial
                       (pwm_init_fields LED_PIN)
                       [("Mode: Breathing" ++ nl)%string]) by reflexivity.
  rewrite Hfirst.
  match goal with
  | |- context [control_loop _ ?x] =>
      destruct (breathing_run sines x 0 eq_refl ltac:(cbn; lia)
                  eq_refl eq_refl eq_refl) as (H1 & _ & _ & H4 & H5)
  end.
  cbn zeta in H1, H4, H5. cbn [animation_counter printed] in H4, H5.
  split; [exact H1 |]. split; [| exact H5].
  rewrite H4.
  assert (Heq : Z.of_nat 0 + (1 + Z.of_nat (List.length sines)) / 10
                = Z.succ (Z.of_nat (List.length sines)) / 10)
    by (change (Z.of_nat 0) with 0; rewrite Z.add_0_l; f_equal; lia).
  rewrite Heq. reflexivity.
Qed.

(** The names the loop prints do not follow the enumerators: the press that
    enters [MODE_STROBE] prints "Sine Wave" and the press that enters
    [MODE_SINE_WAVE] prints "Strobe", while the animation that is stepped in
    [MODE_STROBE] is the strobe and the one in [MODE_SINE_WAVE] is the sine
    wave. *)
Theorem mode_names_swapped (s : Z) (st : loop_state) :
  last_button_state st = 1 ->
  (current_mode st = MODE_BREATHING ->
   current_mode (loop_iteration 0 s st) = MODE_STROBE
   /\ printed (loop_iteration 0 s st)
      = ("Mode: Sine Wave" ++ nl)%string :: printed st)
  /\ (current_mode st = MODE_STROBE ->
      current_mode (loop_iteration 0 s st) = MODE_SINE_WAVE
      /\ printed (loop_iteration 0 s st)
         = ("Mode: Strobe" ++ nl)%string :: printed st)
  /\ (current_mode st = MODE_STROBE ->
      strobe (run_animation s st)
      = statics_after (strobe_animation (strobe st) (chan st))
      /\ chan (run_animation s st)
         = channel_after (strobe_animation (strobe st) (chan st)))
  /\ (current_mode st = MODE_SINE_WAVE ->
      strobe (run_animation s st) = strobe st
      /\ chan (run_animation s st) = set_duty_cycle (chan st) s).
Proof.
  intros Hlast.
  destruct (loop_iteration_button 0 s st) as (Hm & _ & Hp).
  cbn zeta in Hm, Hp. rewrite Hlast in Hm, Hp.
  cbn [Z.eqb Pos.eqb andb] in Hm, Hp.
  split; [| split; [| split]].
  - intros Hmode. rewrite Hp, Hm, Hmode. split; reflexivity.
  - intros Hmode. rewrite Hp, Hm, Hmode. split; reflexivity.
  - intros Hmode. unfold run_animation. rewrite Hmode.
    cbn [Z.eqb Pos.eqb MODE_STROBE MODE_MANUAL MODE_BREATHING MODE_SINE_WAVE].
    unfold statics_after, channel_after.
    destruct (strobe_animation (strobe st) (chan st)) as [[s' p] l].
    split; reflexivity.
  - intros Hmode. unfold run_animation. rewrite Hmode.
    cbn [Z.eqb Pos.eqb MODE_STROBE MODE_MANUAL MODE_BREATHING MODE_SINE_WAVE].
    split; reflexivity.
Qed.

Lemma mode_names_swapped_witness :
  let st := control_loop (press_release [(7, 7)]) loop_entry in
  current_mode (loop_iteration 0 7 st) = MODE_STROBE
  /\ printed (loop_iteration 0 7 st)
     = ("Mode: Sine Wave" ++ nl)%string :: printed st.
Proof.
  destruct (mode_names_swapped 7
              (control_loop (press_release [(7, 7)]) loop_entry) eq_refl)
    as (Hb & _).
  exact (Hb eq_refl).
Defined.

End ControlLoopFacts.

(** ** The cleanup chain of [main] *)

Section CleanupFacts.
Import Startup Cleanup.

(** On every path through [main], each resource is given back exactly once
    if it was acquired and not at all otherwise: the LED line and the
    button line are released exactly when their requests had succeeded, the
    chip is closed exactly when it had been opened, and the mutex is
    destroyed exactly when it had been initialised.  One [perror] line is
    printed when an acquisition fails and none when all succeed. *)
Theorem cleanup_matches_acquisition (p : platform) :
  let done := effects (main p) in
  count (is_release LED_PIN) done = (if led_requested p then 1 else 0)%nat
  /\ count (is_release BUTTON_PIN) done
     = (if button_requested p then 1 else 0)%nat
  /\ count is_chip_close done = (if chip_opens p then 1 else 0)%nat
  /\ count destroys_mutex done = (if mutex_created p then 1 else 0)%nat
  /\ count is_perror done
     = (match first_failure p with Some _ => 1 | None => 0 end)%nat.
Proof.
  cbn zeta.
  unfold mutex_created, button_requested, led_requested,
    first_failure, main, pwm_init.
  destruct (chip_opens p); cbn [negb andb];
    [| repeat split; reflexivity].
  destruct (led_line_found p); cbn [negb andb];
    [| repeat split; reflexivity].
  destruct (button_line_found p); cbn [negb andb];
    [| repeat split; reflexivity].
  destruct (request_output_ret p <? 0); cbn [negb andb];
    [repeat split; reflexivity |].
  destruct (request_input_ret p <? 0); cbn [negb andb];
    [repeat split; reflexivity |].
  destruct (mutex_init_ret p =? 0); cbn [negb andb];
    [| repeat split; reflexivity].
  destruct (thread_create_ret p =? 0); cbn [negb andb];
    repeat split; reflexivity.
Qed.

End CleanupFacts.

(** ** The waveform on the line *)

Section WaveformFacts.
Import Generator Waveform.

Lemma cycle_actions_ok (d : Z) :
  0 <= d <= 100 -> Forall action_ok (cycle_actions d).
Proof.
  intros H.
  destruct (cycle_actions_cases d H) as [[Hd E] | [[Hd E] | [Hd E]]];
    rewrite E; rewrite ?PWM_PERIOD_NS_value;
    repeat (apply Forall_cons || apply Forall_nil);
    unfold action_ok; rewrite ?PWM_PERIOD_NS_value; lia.
Qed.

Lemma one_cycle_head (a : action) (todo : list action) :
  one_cycle (InCycle (a :: todo)) ->
  action_ok a /\ one_cycle (after_action todo).
Proof.
  intros (_ & d & done & Hd & Hcycle). split.
  - pose proof (cycle_actions_ok d Hd) as Hall.
    rewrite Hcycle in Hall. rewrite Forall_forall in Hall.
    apply Hall. apply in_or_app. right. left. reflexivity.
  - destruct todo as [| b todo]; [exact I |].
    cbn [after_action one_cycle]. split; [discriminate |].
    exists d, (done ++ [a]). split; [exact Hd |].
    rewrite <- app_assoc. exact Hcycle.
Qed.

Lemma one_cycle_start (d : Z) :
  0 <= d <= 100 -> one_cycle (after_action (cycle_actions d)).
Proof.
  intros Hd. destruct (cycle_actions d) as [| a todo] eqn:E; [exact I |].
  cbn [after_action one_cycle]. split; [discriminate |].
  exists d, []. split; [exact Hd | exact E].
Qed.

Lemma after_action_not_returned (todo : list action) :
  after_action todo <> Returned.
Proof. destruct todo; discriminate. Qed.

Lemma gpiod_line_set_value_level (h : gpio) (v : Z) :
  let '(ret, g) := gpiod_line_set_value h v in
  (ret = 0 /\ level g = v) \/ (ret = -1 /\ level g = level h).
Proof.
  unfold gpiod_line_set_value.
  destruct (faults h) as [| [|] fs]; cbn [level]; auto.
Qed.

Lemma last_write_level (init v : Z) (tr : list event) :
  last_write tr = Some (v, 0) -> line_level init tr = v.
Proof.
  induction tr as [| e tr IH]; [discriminate |].
  destruct e; cbn [last_write line_level]; try exact IH.
  intros [= -> ->]. reflexivity.
Qed.

Lemma wave_write init p h c t t' m tr (v : Z) :
  v = 0 \/ v = 1 ->
  one_cycle t' ->
  (t' = Returned -> v = 0) ->
  wave_inv init (mk_system p h c t m tr) ->
  wave_inv init
    (let '(ret, g) := gpiod_line_set_value h v in
     mk_system p g c t' m (EvWrite v ret :: tr)).
Proof.
  intros Hv Hcycle Hfinal (_ & Hall & Hlevel & _).
  cbn [tpc trace hw] in *.
  pose proof (gpiod_line_set_value_level h v) as Hw.
  destruct (gpiod_line_set_value h v) as [ret g].
  unfold wave_inv. cbn [tpc trace hw].
  split; [exact Hcycle |]. split.
  - constructor; [| exact Hall]. cbn [event_ok]. split; [exact Hv |].
    destruct Hw as [[-> _] | [-> _]]; auto.
  - split.
    + cbn [line_level].
      destruct Hw as [[-> Hg] | [-> Hg]]; cbn [Z.eqb]; congruence.
    + intros Hret. exists ret. cbn [last_write].
      rewrite (Hfinal Hret). reflexivity.
Qed.

Lemma wave_pwm_thread_step (init : Z) (s : system) :
  inv s -> wave_inv init s -> wave_inv init (pwm_thread_step s).
Proof.
  destruct s as [p h c t m tr].
  intros (Hduty & _ & _) Hwave. cbn [pwm] in Hduty.
  pose proof Hwave as (Hcycle & Hall & Hlevel & Hlast).
  cbn [tpc trace hw] in Hcycle, Hall, Hlevel, Hlast.
  unfold pwm_thread_step. cbn [tpc pwm hw console mpc trace].
  destruct t as [| | [| [v | ns] todo] | |].
  - destruct (active p); unfold wave_inv; cbn [tpc trace hw].
    + repeat split; try assumption. discriminate.
    + split; [exact I |]. split; [constructor; [exact I | exact Hall] |].
      split; [exact Hlevel | discriminate].
  - unfold wave_inv. cbn [tpc trace hw].
    split; [apply one_cycle_start; exact Hduty |].
    split; [exact Hall |]. split; [exact Hlevel |].
    intros Hret. elim (after_action_not_returned _ Hret).
  - unfold wave_inv. cbn [tpc trace hw].
    repeat split; try assumption. discriminate.
  - destruct (one_cycle_head _ _ Hcycle) as [Hok Hnext].
    apply (wave_write init p h c (InCycle (SetValue v :: todo)));
      [exact Hok | exact Hnext | | exact Hwave].
    intros Hret. elim (after_action_not_returned _ Hret).
  - destruct (one_cycle_head _ _ Hcycle) as [Hok Hnext].
    unfold wave_inv. cbn [tpc trace hw].
    split; [exact Hnext |].
    split; [constructor; [exact Hok | exact Hall] |].
    split; [exact Hlevel |].
    intros Hret. elim (after_action_not_returned _ Hret).
  - apply (wave_write init p h c AtFinalWrite);
      [left; reflexivity | exact I | reflexivity | exact Hwave].
  - exact Hwave.
Qed.

Lemma wave_main_event init p p' h c c' t m m' tr (e : event) :
  is_thread_event e = false ->
  wave_inv init (mk_system p h c t m tr) ->
  wave_inv init (mk_system p' h c' t m' (e :: tr)).
Proof.
  intros He (Hcycle & Hall & Hlevel & Hlast).
  cbn [tpc trace hw] in *. unfold wave_inv. cbn [tpc trace hw].
  split; [exact Hcycle |].
  split; [constructor; [destruct e; try exact I; discriminate He | exact Hall] |].
  split.
  - destruct e; cbn [line_level]; try exact Hlevel; discriminate He.
  - intros Hret. destruct (Hlast Hret) as [ret Hw]. exists ret.
    destruct e; cbn [last_write]; try exact Hw; discriminate He.
Qed.

Lemma wave_main_step (init : Z) (req : option Z) (s : system) :
  wave_inv init s -> wave_inv init (main_step req s).
Proof.
  destruct s as [p h c t m tr]. intros Hwave.
  unfold main_step. cbn [tpc pwm hw console mpc trace].
  destruct m.
  - destruct req as [v |];
      apply (wave_main_event init p _ h c _ t InMainLoop);
      try reflexivity; exact Hwave.
  - destruct t; try exact Hwave.
    apply (wave_main_event init p _ h c _ Returned AtJoin);
      [reflexivity | exact Hwave].
  - apply (wave_main_event init p _ h c _ t AtMutexDestroy);
      [reflexivity | exact Hwave].
  - apply (wave_main_event init p _ h c _ t AtReleaseButton);
      [reflexivity | exact Hwave].
  - apply (wave_main_event init p _ h c _ t AtReleaseLed);
      [reflexivity | exact Hwave].
  - apply (wave_main_event init p _ h c _ t AtCloseChip);
      [reflexivity | exact Hwave].
  - exact Hwave.
Qed.

Lemma wave_run (init : Z) (sch : list choice) (s : system) :
  inv s -> wave_inv init s -> wave_inv init (run sch s).
Proof.
  revert s. induction sch as [| c sch IH]; intros s Hinv Hwave; [exact Hwave |].
  apply (IH (step c s)); [apply step_inv; exact Hinv |].
  destruct c as [| req];
    [apply wave_pwm_thread_step; assumption | apply wave_main_step; exact Hwave].
Qed.

Lemma wave_reachable (ln : Z) (g : gpio) (sch : list choice) :
  wave_inv (level g) (run sch (started ln g)).
Proof.
  apply wave_run; [apply inv_started |].
  unfold wave_inv, started. cbn [tpc trace hw one_cycle line_level].
  split; [exact I |]. split; [constructor |]. split; [reflexivity | discriminate].
Qed.






(** In every state the running program reaches, the level of the line is
    the value of the newest write that succeeded (the starting level if
    there is none): a failed write leaves the line as it was.  Once the
    generation thread has returned, the newest write is its write of 0, so
    the line is low unless that last write failed. *)
Theorem line_follows_writes (ln : Z) (g : gpio) (sch : list choice) :
  let s := run sch (started ln g) in
  level (hw s) = line_level (level g) (trace s)
  /\ (tpc s = Returned ->
      exists ret,
        last_write (trace s) = Some (0, ret)
        /\ (ret = 0 -> level (hw s) = 0)).
Proof.
  cbn zeta. destruct (wave_reachable ln g sch) as (_ & _ & Hlevel & Hlast).
  split; [exact Hlevel |].
  intros Hret. destruct (Hlast Hret) as [ret Hw]. exists ret.
  split; [exact Hw |]. intros ->. rewrite Hlevel.
  apply last_write_level. exact Hw.
Qed.

Lemma line_follows_writes_witness :
  level (hw (run sample_schedule (started LED_PIN sample_gpio))) = 0.
Proof.
  destruct (line_follows_writes LED_PIN sample_gpio sample_schedule)
    as [_ Hret].
  destruct (Hret eq_refl) as (ret & Hw & Hlow).
  apply Hlow. injection Hw as Hw. symmetry. exact Hw.
Defined.










(** *** Shutdown from any state *)

Lemma run_stopped (sch : list choice) (s : system) :
  inv s -> active (pwm s) = false -> active (pwm (run sch s)) = false.
Proof.
  revert s. induction sch as [| c sch IH]; intros s Hinv Hact; [exact Hact |].
  apply (IH (step c s)); [apply step_inv; exact Hinv |].
  destruct c as [| req].
  - apply (thread_steps_left s Hinv Hact).
  - apply (main_step_stopped req s Hact).
Qed.

Lemma leave_loop_stops (s : system) :
  inv s -> active (pwm (main_step None s)) = false.
Proof.
  intros (_ & _ & Hmain). destruct s as [p h c t m tr].
  unfold main_inv in Hmain. cbn [mpc pwm tpc trace] in Hmain.
  unfold main_step. cbn [tpc pwm hw console mpc trace].
  destruct m; cbn [pwm active]; try (destruct Hmain as [Hact _]; exact Hact).
  - reflexivity.
  - destruct Hmain as [Hact _]. destruct t; exact Hact.
Qed.

Lemma main_step_after_return (req : option Z) (s : system) :
  tpc s = Returned -> mpc s <> InMainLoop ->
  tpc (main_step req s) = Returned
  /\ mpc (main_step req s) <> InMainLoop
  /\ (main_steps_left (mpc (main_step req s))
      <= Nat.pred (main_steps_left (mpc s)))%nat.
Proof.
  destruct s as [p h c t m tr]. cbn [tpc mpc]. intros -> Hm.
  unfold main_step. cbn [tpc pwm hw console mpc trace].
  destruct m; cbn [tpc mpc main_steps_left Nat.pred];
    try (split; [reflexivity | split; [discriminate | lia]]).
  contradiction.
Qed.

Lemma run_main_after_return (n : nat) (s : system) :
  tpc s = Returned -> mpc s <> InMainLoop ->
  let s' := run (repeat (RunMain None) n) s in
  tpc s' = Returned
  /\ (main_steps_left (mpc s') <= main_steps_left (mpc s) - n)%nat.
Proof.
  revert s. induction n as [| n IH]; intros s Ht Hm.
  - cbn. split; [exact Ht | lia].
  - cbn zeta. cbn [repeat].
    change (run (RunMain None :: repeat (RunMain None) n) s)
      with (run (repeat (RunMain None) n) (main_step None s)).
    destruct (main_step_after_return None s Ht Hm) as (Ht' & Hm' & Hdec).
    destruct (IH _ Ht' Hm') as (Ht'' & Hdec'). cbn zeta in Ht'', Hdec'.
    split; [exact Ht'' | lia].
Qed.

Lemma main_steps_left_zero (pc : main_pc) : main_steps_left pc = O -> pc = Exited.
Proof. destruct pc; cbn; intros H; try reflexivity; discriminate H. Qed.

Lemma thread_returns_in_eight (s : system) :
  inv s -> active (pwm s) = false ->
  tpc (run (repeat RunThread 8) s) = Returned.
Proof.
  intros Hinv Hact. apply steps_left_zero.
  pose proof (run_steps_left (repeat RunThread 8) s Hinv Hact) as Hsteps.
  pose proof (steps_left_bound s Hinv) as Hbound.
  change (count_thread_steps (repeat RunThread 8)) with 8%nat in Hsteps.
  lia.
Qed.

Lemma main_exits_in_five (s : system) :
  inv s -> active (pwm s) = false -> tpc s = Returned ->
  mpc (run (repeat (RunMain None) 5) s) = Exited
  /\ tpc (run (repeat (RunMain None) 5) s) = Returned.
Proof.
  intros Hinv Hact Ht.
  assert (Hm : mpc s <> InMainLoop).
  { intros Hm. destruct Hinv as (_ & _ & Hmain). unfold main_inv in Hmain.
    rewrite Hm in Hmain. destruct Hmain as [Htrue _].
    rewrite Hact in Htrue. discriminate Htrue. }
  assert (Hleft : (main_steps_left (mpc s) <= 5)%nat)
    by (destruct (mpc s); cbn; try lia; contradiction).
  destruct (run_main_after_return 5 s Ht Hm) as (Ht' & Hdec).
  cbn zeta in Ht', Hdec.
  split; [apply main_steps_left_zero; lia | exact Ht'].
Qed.

(** From every state the running program reaches, the shutdown schedule
    (the control thread leaves its loop, the generation thread gets eight
    steps, the control thread five more) ends with the generation thread
    returned and the control thread past [gpiod_chip_close]: [pthread_join]
    never blocks for good, however far either thread had got. *)
Theorem shutdown_completes (ln : Z) (g : gpio) (sch : list choice) :
  let s := run shutdown_schedule (run sch (started ln g)) in
  tpc s = Returned /\ mpc s = Exited /\ active (pwm s) = false.
Proof.
  cbn zeta. unfold shutdown_schedule. rewrite !run_app.
  pose proof (reachable_inv ln g sch) as Hinv0.
  generalize dependent (run sch (started ln g)). intros s0 Hinv0.
  change (run [RunMain None] s0) with (main_step None s0).
  pose proof (main_step_inv None s0 Hinv0) as Hinv1.
  pose proof (leave_loop_stops s0 Hinv0) as Hact1.
  generalize dependent (main_step None s0). intros s1 Hinv1 Hact1.
  pose proof (run_inv (repeat RunThread 8) s1 Hinv1) as Hinv2.
  pose proof (run_stopped (repeat RunThread 8) s1 Hinv1 Hact1) as Hact2.
  pose proof (thread_returns_in_eight s1 Hinv1 Hact1) as Ht2.
  generalize dependent (run (repeat RunThread 8) s1). intros s2 Hinv2 Hact2 Ht2.
  destruct (main_exits_in_five s2 Hinv2 Hact2 Ht2) as [Hm3 Ht3].
  split; [exact Ht3 |]. split; [exact Hm3 |].
  apply run_stopped; [exact Hinv2 | exact Hact2].
Qed.

End WaveformFacts.
